(** * otel-tracetest-printer: the span tree printer of [printer.go]

    A shallow embedding of [PrintSpanTree], [buildSpanBox], [joinLabelValue],
    [formatTime], [indentAllLines] and [isErrorAttribute], and the properties
    of the forest builder and of the recursive renderer.

    The printer leans on three libraries that are not part of the
    repository: Go's [sort] package ([sort.Slice]), the OpenTelemetry types
    ([tracetest.SpanStub], [trace.SpanContext], [attribute.KeyValue]) and the
    lipgloss styling library.  The OpenTelemetry types are given as records
    with the fields the printer reads; [sort.Slice], the lipgloss styles and
    the formatting verbs of [fmt] and [time] are interfaces (type classes)
    whose operations the printer calls. *)

From Stdlib Require Import ZArith Ascii String.
From Stdlib.Strings Require Import Byte.
From Stdlib Require Import DecimalString.
From stdpp Require Import base tactics option list strings gmap fin_maps sorting relations.

Local Open Scope string_scope.
Local Open Scope list_scope.
Local Open Scope nat_scope.

(** ** Data model *)

(** [trace.SpanID] is [[8]byte] and [trace.TraceID] is [[16]byte]; both are
    kept as byte lists, the well-formed ones having the array's length. *)
Definition SpanID := list byte.
Definition TraceID := list byte.

Definition SpanID_wf (s : SpanID) : Prop := length s = 8.
Definition TraceID_wf (t : TraceID) : Prop := length t = 16.

#[global] Instance byte_eq_dec : EqDecision byte.
Proof. intros x y. destruct (Byte.eqb x y) eqn:E.
  - left. by apply Byte.byte_dec_bl.
  - right. intros ->. by rewrite Byte.byte_dec_lb in E.
Defined.

(** [var nilSpanID SpanID]: the zero value of the array. *)
Definition nilSpanID : SpanID := replicate 8 x00.

(** [func (s SpanID) IsValid() bool]: the identifier is not all zeroes. *)
Definition SpanID_IsValid (s : SpanID) : bool := bool_decide (s ≠ nilSpanID).

(** [hex.EncodeToString]: two lower-case hexadecimal digits per byte. *)
Definition hextable : string := "0123456789abcdef".

Definition hex_digit (n : N) : ascii :=
  match String.get (N.to_nat n) hextable with
  | Some c => c
  | None => "0"%char
  end.

Definition hex_byte (b : byte) : string :=
  String (hex_digit (N.shiftr (Byte.to_N b) 4))
    (String (hex_digit (N.land (Byte.to_N b) 15)) EmptyString).

Fixpoint hex_EncodeToString (src : list byte) : string :=
  match src with
  | [] => ""
  | b :: rest => hex_byte b +:+ hex_EncodeToString rest
  end.

(** [func (s SpanID) String() string] and [func (t TraceID) String() string]. *)
Definition SpanID_String (s : SpanID) : string := hex_EncodeToString s.
Definition TraceID_String (t : TraceID) : string := hex_EncodeToString t.

(** [trace.SpanContext], with the accessors [TraceID()] and [SpanID()] as
    projections. *)
Record SpanContext := mkSpanContext {
  sc_TraceID : TraceID;
  sc_SpanID : SpanID;
  sc_TraceFlags : byte
}.

(** The zero [SpanContext], which a stub without parent carries. *)
Definition emptySpanContext : SpanContext :=
  mkSpanContext (replicate 16 x00) nilSpanID x00.

(** What [attribute.Value.AsInterface()] hands out: a [bool], an [int64], a
    [float64] (kept as its IEEE-754 bit pattern), a [string], a slice of one
    of these, or the placeholder of an invalid value. *)
Inductive Value :=
  | VBool (b : bool)
  | VInt64 (i : Z)
  | VFloat64 (bits : Z)
  | VString (s : string)
  | VBoolSlice (bs : list bool)
  | VInt64Slice (zs : list Z)
  | VFloat64Slice (fs : list Z)
  | VStringSlice (ss : list string)
  | VInvalid.

(** [attribute.KeyValue]. *)
Record KeyValue := mkKeyValue {
  Key : string;
  Val : Value
}.

(** [time.Time] as the instant it denotes, in nanoseconds; [Before] compares
    instants. *)
Definition Time := Z.

Definition Time_Before (t u : Time) : bool := (t <? u)%Z.

(** [time.Duration] is an [int64] count of nanoseconds; [Time.Sub] saturates
    at the ends of the range. *)
Definition minDuration : Z := (- 2 ^ 63)%Z.
Definition maxDuration : Z := (2 ^ 63 - 1)%Z.

Definition Time_Sub (t u : Time) : Z :=
  let d := (t - u)%Z in
  if (d <? minDuration)%Z then minDuration
  else if (maxDuration <? d)%Z then maxDuration
  else d.

(** [tracetest.SpanStub], restricted to the fields the printer reads. *)
Record SpanStub := mkSpanStub {
  Name : string;
  SpanContext_ : SpanContext;
  Parent : SpanContext;
  StartTime : Time;
  EndTime : Time;
  Attributes : list KeyValue
}.

#[global] Instance SpanContext_eq_dec : EqDecision SpanContext.
Proof. solve_decision. Defined.
#[global] Instance Value_eq_dec : EqDecision Value.
Proof. solve_decision. Defined.
#[global] Instance KeyValue_eq_dec : EqDecision KeyValue.
Proof. solve_decision. Defined.
#[global] Instance SpanStub_eq_dec : EqDecision SpanStub.
Proof. solve_decision. Defined.

(** The two string keys the printer derives from a span. *)
Definition spanKey (s : SpanStub) : string := SpanID_String (sc_SpanID (SpanContext_ s)).
Definition parentKey (s : SpanStub) : string := SpanID_String (sc_SpanID (Parent s)).
Definition hasParent (s : SpanStub) : bool := SpanID_IsValid (sc_SpanID (Parent s)).

(** ** [isErrorAttribute] *)

(** The [switch key] on three literals, then the type assertion
    [val.(string)] with the two sentinel strings. *)
Definition isErrorAttribute (key : string) (val : Value) : bool :=
  if String.eqb key "error" || String.eqb key "error_code"
     || String.eqb key "rpc.connect_rpc.error_code"
  then true
  else match val with
       | VString strVal =>
           if String.eqb strVal "error" || String.eqb strVal "not_found"
           then true else false
       | _ => false
       end.

(** The two fixed sets the default classifier is described by. *)
Definition errorKeys : list string :=
  ["error"; "error_code"; "rpc.connect_rpc.error_code"].
Definition errorSentinels : list string := ["error"; "not_found"].

(** ** Strings *)

Definition newline : ascii := "010"%char.
Definition nl : string := String newline "".

(** [strings.Split(s, sep)] for a separator of one byte (the printer splits
    on the line feed only): always at least one piece. *)
Fixpoint strings_Split (s : string) (sep : ascii) : list string :=
  match s with
  | EmptyString => [""]
  | String c rest =>
      if Ascii.eqb c sep then "" :: strings_Split rest sep
      else match strings_Split rest sep with
           | [] => [String c ""]
           | line :: lines => String c line :: lines
           end
  end.

(** [strings.Join(elems, sep)]. *)
Fixpoint strings_Join (elems : list string) (sep : string) : string :=
  match elems with
  | [] => ""
  | [e] => e
  | e :: rest => e +:+ sep +:+ strings_Join rest sep
  end.

(** [strings.HasPrefix] and [strings.Contains]. *)
Fixpoint strings_HasPrefix (s prefix : string) {struct prefix} : bool :=
  match prefix, s with
  | EmptyString, _ => true
  | String p prefix', String c s' => Ascii.eqb p c && strings_HasPrefix s' prefix'
  | String _ _, EmptyString => false
  end.

Fixpoint strings_Contains (s substr : string) : bool :=
  strings_HasPrefix s substr ||
  match s with
  | EmptyString => false
  | String _ s' => strings_Contains s' substr
  end.

(** [sub] occurs in [s] as a contiguous run of bytes. *)
Definition Substring (sub s : string) : Prop :=
  ∃ pre post, s = pre +:+ sub +:+ post.

(** [indentAllLines]: the prefix in front of every line. *)
Definition indentAllLines (s indent : string) : string :=
  strings_Join (map (λ line, indent +:+ line) (strings_Split s newline)) nl.

(** ** The libraries the printer calls *)

(** The four lipgloss styles of the [var] block, each through its [Render],
    and [lipgloss.JoinVertical(lipgloss.Left, ...)]. *)
Class Lipgloss := {
  labelStyle_Render : string → string;
  valueStyle_Render : string → string;
  errorHighlightStyle_Render : string → string;
  boxStyle_Render : string → string;
  JoinVertical : list string → string
}.

(** [time.Time.Format], [time.Duration.String] and the [%v] verb on an
    attribute value that is neither a string nor a boolean. *)
Class Fmt := {
  Time_Format : Time → string → string;
  Duration_String : Z → string;
  Value_String : Value → string
}.

(** [sort.Slice], as a function from the slice before to the slice after. *)
Class Sort := {
  sort_Slice : ∀ A : Type, (A → A → bool) → list A → list A
}.
Arguments sort_Slice {_ _} _ _.

(** The requirement of [sort.Slice] on its [less]: a strict weak ordering. *)
Record StrictWeak {A} (less : A → A → bool) : Prop := {
  sw_irrefl : ∀ a, less a a = false;
  sw_trans : ∀ a b c, less a b = true → less b c = true → less a c = true;
  sw_ntrans : ∀ a b c, less a b = false → less b c = false → less a c = false
}.

(** What the documentation of [sort.Slice] promises: the same elements, in
    an order in which no later element is less than an earlier one.  It
    promises nothing on the order of elements that compare equal. *)
Class SortSpec `{Sort} : Prop := {
  sort_Slice_perm : ∀ A (less : A → A → bool) (x : list A),
    sort_Slice less x ≡ₚ x;
  sort_Slice_sorted : ∀ A (less : A → A → bool) (x : list A),
    StrictWeak less → StronglySorted (λ a b, less b a = false) (sort_Slice less x)
}.

(** ** The printer *)

Definition timeFormat : string := "2006-01-02 15:04:05.000 MST".
Definition childIndent : string := "  ".

(** The values that reach an [interface{}] parameter formatted with [%v]. *)
Inductive Any :=
  | AString (s : string)
  | ADuration (d : Z)
  | AValue (v : Value).

(** [fmt.Sprintf("%v", val)]. *)
Definition Sprintf_v `{Fmt} (val : Any) : string :=
  match val with
  | AString s => s
  | ADuration d => Duration_String d
  | AValue (VString s) => s
  | AValue (VBool b) => if b then "true" else "false"
  | AValue v => Value_String v
  end.

Section Printer.
Context `{Lipgloss, Fmt, Sort}.

Definition joinLabelValue (label : string) (val : Any) : string :=
  labelStyle_Render label +:+ "  " +:+ valueStyle_Render (Sprintf_v val).

Definition formatTime (t : Time) : string := Time_Format t timeFormat.

(** [fmt.Sprintf("• %s = %v", attr.Key, val)]. *)
Definition bullet (attr : KeyValue) : string :=
  "• " +:+ Key attr +:+ " = " +:+ Sprintf_v (AValue (Val attr)).

(** The body of the loop over [span.Attributes]. *)
Definition attrLine (attr : KeyValue) : string :=
  let val := Val attr in
  let attrStyle :=
    if isErrorAttribute (Key attr) val then errorHighlightStyle_Render
    else valueStyle_Render in
  childIndent +:+ attrStyle (bullet attr).

(** Step 1 of [buildSpanBox]: the lines of the span's own fields. *)
Definition fieldLines (span : SpanStub) : list string :=
  let lines := [] in
  let lines := lines ++ [joinLabelValue "Span Name:" (AString (Name span))] in
  let lines := lines ++ [joinLabelValue "TraceID:"
                 (AString (TraceID_String (sc_TraceID (SpanContext_ span))))] in
  let lines := lines ++ [joinLabelValue "SpanID:"
                 (AString (SpanID_String (sc_SpanID (SpanContext_ span))))] in
  let lines :=
    if SpanID_IsValid (sc_SpanID (Parent span))
    then lines ++ [joinLabelValue "ParentSpan:"
                     (AString (SpanID_String (sc_SpanID (Parent span))))]
    else lines in
  let lines := lines ++ [joinLabelValue "Start Time:" (AString (formatTime (StartTime span)))] in
  let lines := lines ++ [joinLabelValue "End Time:" (AString (formatTime (EndTime span)))] in
  let duration := Time_Sub (EndTime span) (StartTime span) in
  lines ++ [joinLabelValue "Duration:" (ADuration duration)].

(** Step 2: the header and one line per attribute. *)
Definition attributeLines (span : SpanStub) : list string :=
  labelStyle_Render "Attributes:" :: map attrLine (Attributes span).

(** [buildSpanBox].  The recursion goes through the children map and is
    not structural; [fuel] bounds the depth of the nested calls, and
    [None] says that the bound was reached. *)
Fixpoint buildSpanBox (fuel : nat) (span : SpanStub)
    (childrenMap : gmap string (list SpanStub)) : option string :=
  match fuel with
  | O => None
  | S fuel' =>
      let lines := fieldLines span ++ attributeLines span in
      childBoxes ← mapM (λ child, buildSpanBox fuel' child childrenMap)
                        (childrenMap !!! spanKey span);
      let lines := lines ++
        map (λ childBox, indentAllLines childBox childIndent) childBoxes in
      let content := JoinVertical lines in
      Some (boxStyle_Render content)
  end.

(** The comparison both calls of [sort.Slice] pass. *)
Definition startBefore (a b : SpanStub) : bool :=
  Time_Before (StartTime a) (StartTime b).

(** First loop: [spanByID], which nothing reads afterwards. *)
Definition build_spanByID (spans : list SpanStub) : gmap string SpanStub :=
  foldl (λ spanByID s, <[spanKey s := s]> spanByID) ∅ spans.

(** Second loop: [childrenMap[parentID] = append(childrenMap[parentID], s)]
    for the spans with a valid parent. *)
Definition build_childrenMap (spans : list SpanStub) : gmap string (list SpanStub) :=
  foldl (λ childrenMap s,
           let parentID := parentKey s in
           if hasParent s
           then <[parentID := (childrenMap !!! parentID) ++ [s]]> childrenMap
           else childrenMap) ∅ spans.

(** Third loop: [for pid := range childrenMap], sorting each entry in
    place.  Go leaves the order of the keys open; [order] is the order the
    run takes them in. *)
Definition sort_children (order : list string)
    (childrenMap : gmap string (list SpanStub)) : gmap string (list SpanStub) :=
  foldl (λ m pid, alter (sort_Slice startBefore) pid m) childrenMap order.

(** An order the [range] loop can take: every key, once. *)
Definition range_order (order : list string)
    (childrenMap : gmap string (list SpanStub)) : Prop :=
  order ≡ₚ elements (dom childrenMap).

(** Fourth loop and the second [sort.Slice]: the roots. *)
Definition find_roots (spans : list SpanStub) : list SpanStub :=
  foldl (λ roots s, if negb (hasParent s) then roots ++ [s] else roots) [] spans.

Definition sorted_roots (spans : list SpanStub) : list SpanStub :=
  sort_Slice startBefore (find_roots spans).

(** The children map the renderer is given. *)
Definition forest (order : list string) (spans : list SpanStub) :
    gmap string (list SpanStub) :=
  sort_children order (build_childrenMap spans).

(** [fmt.Fprintln(w, treeStr)] on a writer kept as the bytes it has
    received. *)
Definition Fprintln (w treeStr : string) : string := w +:+ treeStr +:+ nl.

(** Last loop: one block per root. *)
Definition print_roots (fuel : nat) (childrenMap : gmap string (list SpanStub))
    (w : string) (roots : list SpanStub) : option string :=
  foldl (λ w root,
           w ← w;
           treeStr ← buildSpanBox fuel root childrenMap;
           Some (Fprintln w treeStr)) (Some w) roots.

(** [PrintSpanTree]: from the bytes [w] already holds to the bytes it
    holds when the call returns. *)
Definition PrintSpanTree (fuel : nat) (order : list string) (w : string)
    (spans : list SpanStub) : option string :=
  if bool_decide (length spans = 0) then Some w
  else
    let spanByID := build_spanByID spans in
    let childrenMap := build_childrenMap spans in
    let childrenMap := sort_children order childrenMap in
    let roots := find_roots spans in
    let roots := sort_Slice startBefore roots in
    print_roots fuel childrenMap w roots.

End Printer.

(** ** Go's [sort.Slice], for runs on concrete inputs

    [sort.Slice] belongs to Go's standard library, not to the repository.
    The theorems below use only what its documentation promises
    ([SortSpec]).  To run the printer on a concrete slice one needs the
    function itself: this module follows [sort/zsortfunc.go] (the
    pattern-defeating quicksort that the package uses since Go 1.19) on a
    list, with [Less] and [Swap] by index as in [lessSwap]. *)
Module GoSort.
Section pdqsort.
Context {A : Type} (less : A → A → bool).

Definition Less (data : list A) (i j : nat) : bool :=
  match data !! i, data !! j with
  | Some x, Some y => less x y
  | _, _ => false
  end.

Definition Swap (data : list A) (i j : nat) : list A :=
  match data !! i, data !! j with
  | Some x, Some y => <[j := x]> (<[i := y]> data)
  | _, _ => data
  end.

(** [for j := i; j > a && data.Less(j, j-1); j--] *)
Fixpoint insertionSort_inner (data : list A) (a j : nat) : list A :=
  match j with
  | S j' =>
      if (a <? j) && Less data j j'
      then insertionSort_inner (Swap data j j') a j'
      else data
  | O => data
  end.

(** [for i := a + 1; i < b; i++] *)
Fixpoint insertionSort_outer (n : nat) (data : list A) (a i : nat) : list A :=
  match n with
  | O => data
  | S n' => insertionSort_outer n' (insertionSort_inner data a i) a (S i)
  end.

Definition insertionSort_func (data : list A) (a b : nat) : list A :=
  insertionSort_outer (b - (a + 1)) data a (a + 1).

Fixpoint siftDown_loop (n : nat) (data : list A) (root hi first : nat) : list A :=
  match n with
  | O => data
  | S n' =>
      let child := 2 * root + 1 in
      if hi <=? child then data
      else
        let child :=
          if (child + 1 <? hi) && Less data (first + child) (first + child + 1)
          then child + 1 else child in
        if negb (Less data (first + root) (first + child)) then data
        else siftDown_loop n' (Swap data (first + root) (first + child)) child hi first
  end.

Definition siftDown_func (data : list A) (lo hi first : nat) : list A :=
  siftDown_loop hi data lo hi first.

(** [for i := (hi - 1) / 2; i >= 0; i--] *)
Fixpoint heapSort_build (i : nat) (data : list A) (hi first : nat) : list A :=
  let data := siftDown_func data i hi first in
  match i with
  | O => data
  | S i' => heapSort_build i' data hi first
  end.

(** [for i := hi - 1; i >= 0; i--] *)
Fixpoint heapSort_pop (n : nat) (data : list A) (lo first : nat) : list A :=
  match n with
  | O => data
  | S i => heapSort_pop i (siftDown_func (Swap data first (first + i)) lo i first) lo first
  end.

Definition heapSort_func (data : list A) (a b : nat) : list A :=
  let first := a in
  let lo := 0 in
  let hi := b - a in
  heapSort_pop hi (heapSort_build ((hi - 1) / 2) data hi first) lo first.

Inductive sortedHint := unknownHint | increasingHint | decreasingHint.

(** [order2_func], [median_func], [medianAdjacent_func]: the counter
    [*swaps] is threaded through. *)
Definition order2_func (data : list A) (a b swaps : nat) : nat * nat * nat :=
  if Less data b a then (b, a, S swaps) else (a, b, swaps).

Definition median_func (data : list A) (a b c swaps : nat) : nat * nat :=
  let '(a, b, swaps) := order2_func data a b swaps in
  let '(b, c, swaps) := order2_func data b c swaps in
  let '(a, b, swaps) := order2_func data a b swaps in
  (b, swaps).

Definition medianAdjacent_func (data : list A) (a swaps : nat) : nat * nat :=
  median_func data (a - 1) a (a + 1) swaps.

Definition shortestNinther : nat := 50.
Definition maxSwaps : nat := 4 * 3.

Definition choosePivot_func (data : list A) (a b : nat) : nat * sortedHint :=
  let l := b - a in
  let swaps := 0 in
  let i := a + l / 4 * 1 in
  let j := a + l / 4 * 2 in
  let k := a + l / 4 * 3 in
  let '(j, swaps) :=
    if 8 <=? l then
      let '(i, j, k, swaps) :=
        if shortestNinther <=? l then
          let '(i, swaps) := medianAdjacent_func data i swaps in
          let '(j, swaps) := medianAdjacent_func data j swaps in
          let '(k, swaps) := medianAdjacent_func data k swaps in
          (i, j, k, swaps)
        else (i, j, k, swaps) in
      median_func data i j k swaps
    else (j, swaps) in
  if swaps =? 0 then (j, increasingHint)
  else if swaps =? maxSwaps then (j, decreasingHint)
  else (j, unknownHint).

(** [for i < j { data.Swap(i, j); i++; j-- }] *)
Fixpoint reverseRange_loop (n : nat) (data : list A) (i j : nat) : list A :=
  match n with
  | O => data
  | S n' => if i <? j then reverseRange_loop n' (Swap data i j) (S i) (j - 1) else data
  end.

Definition reverseRange_func (data : list A) (a b : nat) : list A :=
  reverseRange_loop (b - a) data a (b - 1).

Definition wrap64 (z : Z) : Z := (z mod 2 ^ 64)%Z.

(** [func (r *xorshift) Next() uint64] *)
Definition xorshift_Next (r : Z) : Z :=
  let r := Z.lxor r (wrap64 (Z.shiftl r 13)) in
  let r := Z.lxor r (Z.shiftr r 7) in
  let r := Z.lxor r (wrap64 (Z.shiftl r 17)) in
  r.

(** [bits.Len] *)
Definition bits_Len (n : nat) : nat :=
  match n with
  | O => 0
  | _ => S (Nat.log2 n)
  end.

Definition nextPowerOfTwo (length : nat) : Z := Z.shiftl 1 (Z.of_nat (bits_Len length)).

Fixpoint breakPatterns_loop (n i : nat) (data : list A) (a length idx : nat)
    (random modulus : Z) : list A :=
  match n with
  | O => data
  | S n' =>
      let random := xorshift_Next random in
      let other := Z.to_nat (Z.land random (modulus - 1)) in
      let other := if length <=? other then other - length else other in
      breakPatterns_loop n' (S i) (Swap data (idx - 1 + i) (a + other)) a length idx
        random modulus
  end.

Definition breakPatterns_func (data : list A) (a b : nat) : list A :=
  let length := b - a in
  if 8 <=? length then
    let random := Z.of_nat length in
    let modulus := nextPowerOfTwo length in
    let idx := a + (length / 4) * 2 - 1 in
    breakPatterns_loop 3 0 data a length idx random modulus
  else data.

(** [for i <= j && data.Less(i, a) { i++ }] and
    [for i <= j && !data.Less(j, a) { j-- }] *)
Fixpoint scan_less (n : nat) (data : list A) (a i j : nat) : nat :=
  match n with
  | O => i
  | S n' => if (i <=? j) && Less data i a then scan_less n' data a (S i) j else i
  end.

Fixpoint scan_notless (n : nat) (data : list A) (a i j : nat) : nat :=
  match n with
  | O => j
  | S n' => if (i <=? j) && negb (Less data j a) then scan_notless n' data a i (j - 1) else j
  end.

Fixpoint partition_loop (n : nat) (data : list A) (a i j : nat) : list A * nat :=
  match n with
  | O => (data, j)
  | S n' =>
      let i := scan_less (S (j - i)) data a i j in
      let j := scan_notless (S (j - i)) data a i j in
      if j <? i then (data, j)
      else partition_loop n' (Swap data i j) a (S i) (j - 1)
  end.

Definition partition_func (data : list A) (a b pivot : nat) : list A * nat * bool :=
  let data := Swap data a pivot in
  let i := a + 1 in
  let j := b - 1 in
  let i := scan_less (b - a) data a i j in
  let j := scan_notless (b - a) data a i j in
  if j <? i then (Swap data j a, j, true)
  else
    let data := Swap data i j in
    let '(data, j) := partition_loop (b - a) data a (S i) (j - 1) in
    (Swap data j a, j, false).

(** [for i <= j && !data.Less(a, i) { i++ }] and
    [for i <= j && data.Less(a, j) { j-- }] *)
Fixpoint scan_notgreater (n : nat) (data : list A) (a i j : nat) : nat :=
  match n with
  | O => i
  | S n' => if (i <=? j) && negb (Less data a i) then scan_notgreater n' data a (S i) j else i
  end.

Fixpoint scan_greater (n : nat) (data : list A) (a i j : nat) : nat :=
  match n with
  | O => j
  | S n' => if (i <=? j) && Less data a j then scan_greater n' data a i (j - 1) else j
  end.

Fixpoint partitionEqual_loop (n : nat) (data : list A) (a i j : nat) : list A * nat :=
  match n with
  | O => (data, i)
  | S n' =>
      let i := scan_notgreater (S (j - i)) data a i j in
      let j := scan_greater (S (j - i)) data a i j in
      if j <? i then (data, i)
      else partitionEqual_loop n' (Swap data i j) a (S i) (j - 1)
  end.

Definition partitionEqual_func (data : list A) (a b pivot : nat) : list A * nat :=
  let data := Swap data a pivot in
  partitionEqual_loop (S (b - a)) data a (a + 1) (b - 1).

Definition maxSteps : nat := 5.
Definition shortestShifting : nat := 50.

(** [for i < b && !data.Less(i, i-1) { i++ }] *)
Fixpoint skip_ordered (n : nat) (data : list A) (i b : nat) : nat :=
  match n with
  | O => i
  | S n' => if (i <? b) && negb (Less data i (i - 1)) then skip_ordered n' data (S i) b else i
  end.

(** [for j := i - 1; j >= 1; j--] *)
Fixpoint shift_left (data : list A) (j : nat) : list A :=
  match j with
  | O => data
  | S j' => if negb (Less data j j') then data else shift_left (Swap data j j') j'
  end.

(** [for j := i + 1; j < b; j++] *)
Fixpoint shift_right (n : nat) (data : list A) (j b : nat) : list A :=
  match n with
  | O => data
  | S n' =>
      if j <? b then
        if negb (Less data j (j - 1)) then data
        else shift_right n' (Swap data j (j - 1)) (S j) b
      else data
  end.

Fixpoint partialInsertionSort_loop (steps : nat) (data : list A) (a b i : nat) :
    list A * bool :=
  match steps with
  | O => (data, false)
  | S steps' =>
      let i := skip_ordered (b - a) data i b in
      if i =? b then (data, true)
      else if b - a <? shortestShifting then (data, false)
      else
        let data := Swap data i (i - 1) in
        let data := if 2 <=? i - a then shift_left data (i - 1) else data in
        let data := if 2 <=? b - i then shift_right (b - i) data (i + 1) b else data in
        partialInsertionSort_loop steps' data a b i
  end.

Definition partialInsertionSort_func (data : list A) (a b : nat) : list A * bool :=
  partialInsertionSort_loop maxSteps data a b (a + 1).

Definition maxInsertion : nat := 12.

(** [pdqsort_func]: [n] bounds the turns of the [for] loop together with
    the nested calls; every turn shortens [data[a:b]]. *)
Fixpoint pdqsort_loop (n : nat) (data : list A) (a b limit : nat)
    (wasBalanced wasPartitioned : bool) : list A :=
  match n with
  | O => data
  | S n' =>
      let length := b - a in
      if length <=? maxInsertion then insertionSort_func data a b
      else if limit =? 0 then heapSort_func data a b
      else
        let '(data, limit) :=
          if negb wasBalanced then (breakPatterns_func data a b, limit - 1)
          else (data, limit) in
        let '(pivot, hint) := choosePivot_func data a b in
        let '(data, pivot, hint) :=
          match hint with
          | decreasingHint =>
              (reverseRange_func data a b, (b - 1) - (pivot - a), increasingHint)
          | _ => (data, pivot, hint)
          end in
        let '(data, sorted) :=
          match hint with
          | increasingHint =>
              if wasBalanced && wasPartitioned then partialInsertionSort_func data a b
              else (data, false)
          | _ => (data, false)
          end in
        if sorted then data
        else if (0 <? a) && negb (Less data (a - 1) pivot) then
          let '(data, mid) := partitionEqual_func data a b pivot in
          pdqsort_loop n' data mid b limit wasBalanced wasPartitioned
        else
          let '(data, mid, alreadyPartitioned) := partition_func data a b pivot in
          let wasPartitioned := alreadyPartitioned in
          let leftLen := mid - a in
          let rightLen := b - mid in
          let balanceThreshold := length / 8 in
          if leftLen <? rightLen then
            let wasBalanced := balanceThreshold <=? leftLen in
            let data := pdqsort_loop n' data a mid limit true true in
            pdqsort_loop n' data (mid + 1) b limit wasBalanced wasPartitioned
          else
            let wasBalanced := balanceThreshold <=? rightLen in
            let data := pdqsort_loop n' data (mid + 1) b limit true true in
            pdqsort_loop n' data a mid limit wasBalanced wasPartitioned
  end.

Definition pdqsort_func (data : list A) (a b limit : nat) : list A :=
  pdqsort_loop (S (b - a)) data a b limit true true.

(** [func Slice(x any, less func(i, j int) bool)] *)
Definition Slice (x : list A) : list A :=
  let length := length x in
  let limit := bits_Len length in
  pdqsort_func x 0 length limit.

End pdqsort.
End GoSort.

(** [sort.Slice] as Go runs it. *)
Definition go_sort : Sort := {| sort_Slice := λ A less x, GoSort.Slice less x |}.

(** ** lipgloss on a terminal without colours

    lipgloss is a library outside the repository.  The theorems below hold
    for every [Lipgloss]; to run the printer on a concrete input (and to see
    what a frame does to the block it encloses) this module gives the four
    styles of the [var] block and [JoinVertical] as lipgloss renders them
    under the colour profile [Ascii], the one it selects when the output is
    not a terminal: no escape sequences, only padding, alignment and the
    border.  The display width of a string is taken as its number of UTF-8
    code points. *)
Module PlainLipgloss.

Definition is_continuation (c : ascii) : bool :=
  let n := N_of_ascii c in (128 <=? n)%N && (n <? 192)%N.

Fixpoint Width (s : string) : nat :=
  match s with
  | EmptyString => 0
  | String c s' => (if is_continuation c then 0 else 1) + Width s'
  end.

Fixpoint spaces (n : nat) : string :=
  match n with
  | O => ""
  | S n' => String " " (spaces n')
  end.

Fixpoint repeat_string (s : string) (n : nat) : string :=
  match n with
  | O => ""
  | S n' => s +:+ repeat_string s n'
  end.

(** [getLines]: the lines and the width of the widest. *)
Definition getLines (s : string) : list string * nat :=
  let lines := strings_Split s newline in
  (lines, max_list (map Width lines)).

Definition padTo (w : nat) (line : string) : string :=
  line +:+ spaces (w - Width line).

(** [JoinVertical(lipgloss.Left, strs...)]: every line of every block,
    filled with spaces up to the widest line. *)
Definition JoinVertical_Left (strs : list string) : string :=
  match strs with
  | [] => ""
  | [s] => s
  | _ =>
      let blocks := map (λ s, fst (getLines s)) strs in
      let maxWidth := max_list (map (λ s, snd (getLines s)) strs) in
      strings_Join (map (padTo maxWidth) (concat blocks)) nl
  end.

(** [strings.ReplaceAll(str, "\t", "    ")] and
    [strings.ReplaceAll(str, "\r\n", "\n")]. *)
Fixpoint convertTabs (s : string) : string :=
  match s with
  | EmptyString => ""
  | String c s' =>
      if Ascii.eqb c "009" then "    " +:+ convertTabs s'
      else String c (convertTabs s')
  end.

Fixpoint stripCR (s : string) : string :=
  match s with
  | EmptyString => ""
  | String c s' =>
      match s' with
      | String c' _ =>
          if Ascii.eqb c "013" && Ascii.eqb c' newline then stripCR s'
          else String c (stripCR s')
      | EmptyString => String c ""
      end
  end.

(** [alignTextHorizontal] to the left with no width set. *)
Definition alignLeft (lines : list string) : list string :=
  map (padTo (max_list (map Width lines))) lines.

(** [applyBorder] with [lipgloss.RoundedBorder()]. *)
Definition applyBorder (lines : list string) : list string :=
  let width := max_list (map Width lines) in
  ("╭" +:+ repeat_string "─" width +:+ "╮")
    :: map (λ l, "│" +:+ l +:+ "│") lines
    ++ ["╰" +:+ repeat_string "─" width +:+ "╯"].

(** [Style.Render] of a style with the given horizontal padding and with
    or without border. *)
Definition Render (leftPadding rightPadding : nat) (border : bool) (str : string) :
    string :=
  let str := stripCR (convertTabs str) in
  let lines := strings_Split str newline in
  let lines := map (λ l, spaces leftPadding +:+ l +:+ spaces rightPadding) lines in
  let lines := if 1 <? length lines then alignLeft lines else lines in
  let lines := if border then applyBorder lines else lines in
  strings_Join lines nl.

Definition lipgloss : Lipgloss := {|
  labelStyle_Render := Render 0 0 false;
  valueStyle_Render := Render 0 0 false;
  errorHighlightStyle_Render := Render 0 0 false;
  boxStyle_Render := Render 1 1 true;
  JoinVertical := JoinVertical_Left
|}.

End PlainLipgloss.

(** A stand-in for the formatting of the [time] and [fmt] packages, to run
    the printer: instants and durations are printed as a count of
    nanoseconds, integers in decimal.  How Go spells a time or a float is of
    no concern to the structure of a block. *)
Definition decimal (z : Z) : string := NilZero.string_of_int (Z.to_int z).

Definition count_fmt : Fmt := {|
  Time_Format := λ t layout, decimal t;
  Duration_String := λ d, decimal d +:+ "ns";
  Value_String := λ v,
    match v with
    | VInt64 i => decimal i
    | _ => "?"
    end
|}.

(** ** A sort that keeps the promise of [sort.Slice]

    The insertion sort that [sort.Slice] itself runs on slices of at most
    twelve elements, in functional form: each element moves left past the
    elements it is less than. *)
Module InsertionSort.
Section insertion.
Context {A : Type} (less : A → A → bool).

(** [x] arrives behind the sorted slice and moves left, up to the last
    element it is not less than. *)
Fixpoint insert (x : A) (sorted : list A) : list A :=
  match sorted with
  | [] => [x]
  | y :: rest => if less x y then x :: sorted else y :: insert x rest
  end.

Definition sort (x : list A) : list A := foldl (λ sorted e, insert e sorted) [] x.

End insertion.

Definition Sort_instance : Sort := {| sort_Slice := @sort |}.

End InsertionSort.

(** A sort that keeps the promise of [sort.Slice] without keeping equal
    elements in place: it sorts the reversed slice. *)
Definition reversing_sort : Sort :=
  {| sort_Slice := λ A less x, InsertionSort.sort less (reverse x) |}.

(** ** The spans of [TestPrintSpanTree] *)
Module TestData.

(** [time.Now()], frozen at an instant. *)
Definition now : Time := 1700000000000000000%Z.
Definition Second : Z := 1000000000%Z.
Definition Millisecond : Z := 1000000%Z.

Definition traceID : TraceID :=
  [x01; x02; x03; x04; x05; x06; x07; x08; x09; x0a; x0b; x0c; x0d; x0e; x0f; x10].
Definition FlagsSampled : byte := x01.

Definition rootSpan : SpanStub := {|
  Name := "root-span";
  SpanContext_ := mkSpanContext traceID [x0a; x0b; x0c; x0d; x0e; x0f; x10; x11] FlagsSampled;
  Parent := emptySpanContext;
  StartTime := (now + -2 * Second)%Z;
  EndTime := (now + -1 * Second)%Z;
  Attributes := [mkKeyValue "component" (VString "root")]
|}.

Definition childSpan1 : SpanStub := {|
  Name := "child-span-1";
  SpanContext_ := mkSpanContext traceID [x14; x15; x16; x17; x18; x19; x1a; x1b] FlagsSampled;
  Parent := SpanContext_ rootSpan;
  StartTime := (now + -1500 * Millisecond)%Z;
  EndTime := (now + -1 * Second)%Z;
  Attributes := [mkKeyValue "component" (VString "child-1")]
|}.

Definition childSpan2 : SpanStub := {|
  Name := "child-span-2";
  SpanContext_ := mkSpanContext traceID [x1e; x1f; x20; x21; x22; x23; x24; x25] FlagsSampled;
  Parent := SpanContext_ rootSpan;
  StartTime := (now + -1400 * Millisecond)%Z;
  EndTime := (now + -1 * Second)%Z;
  Attributes := [mkKeyValue "component" (VString "child-2");
                 mkKeyValue "error_code" (VString "something_wrong")]
|}.

Definition childSpan3 : SpanStub := {|
  Name := "child-span-3";
  SpanContext_ := mkSpanContext traceID [x28; x29; x2a; x2b; x2c; x2d; x2e; x2f] FlagsSampled;
  Parent := SpanContext_ childSpan2;
  StartTime := (now + -1300 * Millisecond)%Z;
  EndTime := (now + -1 * Second)%Z;
  Attributes := [mkKeyValue "component" (VString "child-3")]
|}.

Definition spans : list SpanStub := [rootSpan; childSpan1; childSpan2; childSpan3].

End TestData.

(** ** Notions the properties are stated with *)

(** Non-decreasing start time. *)
Definition byStart (a b : SpanStub) : Prop := (StartTime a ≤ StartTime b)%Z.

(** The test of the second loop, for one key. *)
Definition isChildOf (pid : string) (s : SpanStub) : Prop :=
  hasParent s = true ∧ parentKey s = pid.

#[global] Instance isChildOf_dec pid s : Decision (isChildOf pid s).
Proof. unfold isChildOf. apply _. Defined.

(** Stability: among the spans that start at the same instant, the order of
    [output] is the order of [input]. *)
Definition ties_in_input_order (input output : list SpanStub) : Prop :=
  ∀ t : Time,
    filter (λ s, StartTime s = t) output = filter (λ s, StartTime s = t) input.

(** The graph of parent identifiers: an edge from the parent key of a span
    with a valid parent to the span's own key. *)
Definition edge (spans : list SpanStub) (a b : string) : Prop :=
  ∃ s, s ∈ spans ∧ hasParent s = true ∧ parentKey s = a ∧ spanKey s = b.

Definition acyclic (spans : list SpanStub) : Prop :=
  ∀ a, ¬ tc (edge spans) a a.

(** The spans the renderer can reach: the roots, and the spans whose parent
    key is the key of a span it can reach. *)
Inductive Reachable (spans : list SpanStub) : SpanStub → Prop :=
  | Reachable_root r :
      r ∈ spans → hasParent r = false → Reachable spans r
  | Reachable_child p c :
      Reachable spans p → c ∈ spans → hasParent c = true →
      parentKey c = spanKey p → Reachable spans c.

(** A path down the forest: each span is in the child list of the one
    before. *)
Inductive chain (childrenMap : gmap string (list SpanStub)) :
    SpanStub → list SpanStub → Prop :=
  | chain_one s : chain childrenMap s [s]
  | chain_cons s c p :
      c ∈ childrenMap !!! spanKey s → chain childrenMap c p →
      chain childrenMap s (s :: p).

(** The depth of the tree under [s]: the number of spans on a longest path
    from [s] down. *)
Definition tree_depth (childrenMap : gmap string (list SpanStub)) (s : SpanStub)
    (d : nat) : Prop :=
  (∃ p, chain childrenMap s p ∧ length p = d) ∧
  (∀ p, chain childrenMap s p → length p ≤ d).

(** [buildSpanBox] returns [box]: some depth of recursion is enough. *)
Definition returns `{Lipgloss, Fmt} (childrenMap : gmap string (list SpanStub))
    (span : SpanStub) (box : string) : Prop :=
  ∃ fuel, buildSpanBox fuel span childrenMap = Some box.

(** The depth of recursion of [buildSpanBox] on [span]: the least bound
    under which the call returns. *)
Definition recursion_depth `{Lipgloss, Fmt} (childrenMap : gmap string (list SpanStub))
    (span : SpanStub) (d : nat) : Prop :=
  ∀ fuel, is_Some (buildSpanBox fuel span childrenMap) ↔ d ≤ fuel.

(** ** Further inputs *)
Module Examples.
Import TestData.

(** A span without parent, [i] giving its name and identifier. *)
Definition rootNo (i : nat) (start : Time) : SpanStub := {|
  Name := "root-" +:+ decimal (Z.of_nat i);
  SpanContext_ :=
    mkSpanContext traceID
      [x00; x00; x00; x00; x00; x00; x01; default x00 (Byte.of_nat i)] FlagsSampled;
  Parent := emptySpanContext;
  StartTime := start;
  EndTime := (start + Second)%Z;
  Attributes := []
|}.

(** A child of [rootSpan]. *)
Definition childNo (i : nat) (start : Time) : SpanStub := {|
  Name := "child-" +:+ decimal (Z.of_nat i);
  SpanContext_ :=
    mkSpanContext traceID
      [x00; x00; x00; x00; x00; x00; x02; default x00 (Byte.of_nat i)] FlagsSampled;
  Parent := SpanContext_ rootSpan;
  StartTime := start;
  EndTime := (start + Second)%Z;
  Attributes := []
|}.

(** Thirteen roots: the first starts a second after the other twelve,
    which all start at the same instant. *)
Definition roots13 : list SpanStub :=
  rootNo 0 (now + Second)%Z :: map (λ i, rootNo i now) (seq 1 12).

(** [rootSpan] and thirteen children with the same pattern of start
    times. *)
Definition family13 : list SpanStub :=
  rootSpan :: childNo 0 (now + Second)%Z :: map (λ i, childNo i now) (seq 1 12).

(** Two spans that name each other as parent. *)
Definition ping : SpanStub := {|
  Name := "ping";
  SpanContext_ := mkSpanContext traceID [x00; x00; x00; x00; x00; x00; x00; x01] FlagsSampled;
  Parent := mkSpanContext traceID [x00; x00; x00; x00; x00; x00; x00; x02] FlagsSampled;
  StartTime := now;
  EndTime := (now + Second)%Z;
  Attributes := []
|}.

Definition pong : SpanStub := {|
  Name := "pong";
  SpanContext_ := mkSpanContext traceID [x00; x00; x00; x00; x00; x00; x00; x02] FlagsSampled;
  Parent := mkSpanContext traceID [x00; x00; x00; x00; x00; x00; x00; x01] FlagsSampled;
  StartTime := now;
  EndTime := (now + Second)%Z;
  Attributes := []
|}.

(** A span whose parent is in no input. *)
Definition orphan : SpanStub := {|
  Name := "orphan";
  SpanContext_ := mkSpanContext traceID [x00; x00; x00; x00; x00; x00; x00; x03] FlagsSampled;
  Parent := mkSpanContext traceID [x00; x00; x00; x00; x00; x00; x00; x09] FlagsSampled;
  StartTime := now;
  EndTime := (now + Second)%Z;
  Attributes := [mkKeyValue "component" (VString "lost")]
|}.

(** A second span with the identifier of [rootSpan], naming that
    identifier as its parent too. *)
Definition echo : SpanStub := {|
  Name := "echo";
  SpanContext_ := SpanContext_ rootSpan;
  Parent := SpanContext_ rootSpan;
  StartTime := now;
  EndTime := (now + Second)%Z;
  Attributes := []
|}.

(** The order in which a run walks the two keys of the children map of the
    test, and the children map the renderer is then given. *)
Definition test_order : list string := ["1e1f202122232425"; "0a0b0c0d0e0f1011"].
Definition test_forest : gmap string (list SpanStub) :=
  @forest go_sort test_order TestData.spans.

End Examples.

(** No byte of [s] is [sep]. *)
Fixpoint free_of (sep : ascii) (s : string) : Prop :=
  match s with
  | EmptyString => True
  | String c s' => c ≠ sep ∧ free_of sep s'
  end.

(** What the loop over the roots appends to the writer: every block with
    the line feed [Fprintln] adds. *)
Definition written (blocks : list string) : string :=
  foldr (λ block rest, block +:+ nl +:+ rest) "" blocks.



(** * Properties *)

(** ** Strings *)

Lemma append_nil_l (s : string) : "" +:+ s = s.
Proof. reflexivity. Qed.

Lemma append_cons c (s t : string) : String c s +:+ t = String c (s +:+ t).
Proof. reflexivity. Qed.

Lemma append_nil_r (s : string) : s +:+ "" = s.
Proof. induction s as [|c s IH]; [done|]. by rewrite append_cons, IH. Qed.

Lemma append_assoc (a b c : string) : (a +:+ b) +:+ c = a +:+ (b +:+ c).
Proof. induction a as [|x a IH]; [done|]. by rewrite !append_cons, IH. Qed.

Lemma strings_HasPrefix_spec s prefix :
  strings_HasPrefix s prefix = true ↔ ∃ post, s = prefix +:+ post.
Proof.
  revert s. induction prefix as [|p prefix IH]; intros s; simpl.
  - split; [intros _; by exists s | auto].
  - destruct s as [|c s]; simpl.
    + split; [done | intros [post Hpost]; discriminate].
    + rewrite andb_true_iff, IH. split.
      * intros [Hc [post ->]]. apply Ascii.eqb_eq in Hc as ->. by exists post.
      * intros [post Hpost]. rewrite append_cons in Hpost.
        injection Hpost as -> ->. split; [apply Ascii.eqb_refl | by exists post].
Qed.

Lemma strings_Contains_spec s substr :
  strings_Contains s substr = true ↔ Substring substr s.
Proof.
  induction s as [|c s IH].
  - simpl. rewrite orb_false_r, strings_HasPrefix_spec. split.
    + intros [post ->]. by exists "", post.
    + intros (pre & post & Heq). destruct pre; [by exists post | discriminate].
  - cbn [strings_Contains]. rewrite orb_true_iff, IH, strings_HasPrefix_spec. split.
    + intros [[post Hpost] | (pre & post & ->)].
      * by exists "", post.
      * by exists (String c pre), post.
    + intros (pre & post & Heq). destruct pre as [|c' pre].
      * left. by exists post.
      * rewrite append_cons in Heq. injection Heq as -> ->. right. by exists pre, post.
Qed.

Lemma Substring_refl s : Substring s s.
Proof. exists "", "". by rewrite append_nil_l, append_nil_r. Qed.

Lemma Substring_append_r sub s post : Substring sub s → Substring sub (s +:+ post).
Proof.
  intros (pre & post' & ->). exists pre, (post' +:+ post).
  by rewrite !append_assoc.
Qed.

Lemma Substring_append_l sub s pre : Substring sub s → Substring sub (pre +:+ s).
Proof.
  intros (pre' & post & ->). exists (pre +:+ pre'), post.
  by rewrite !append_assoc.
Qed.

(** ** The forest builder *)

Section Forest.
Context `{Lipgloss, Fmt, Sort}.

Lemma find_roots_filter spans :
  find_roots spans = filter (λ s, hasParent s = false) spans.
Proof.
  unfold find_roots.
  assert (∀ acc, foldl (λ roots s, if negb (hasParent s) then roots ++ [s] else roots)
                   acc spans
                 = acc ++ filter (λ s, hasParent s = false) spans) as Hgen.
  { induction spans as [|s spans IH]; intros acc; simpl.
    - by rewrite app_nil_r.
    - rewrite IH, filter_cons. destruct (hasParent s) eqn:Hs; simpl; [done|].
      by rewrite <- app_assoc. }
  apply Hgen.
Qed.

Lemma build_childrenMap_fold (m : gmap string (list SpanStub)) spans k :
  foldl (λ childrenMap s,
           let parentID := parentKey s in
           if hasParent s
           then <[parentID := (childrenMap !!! parentID) ++ [s]]> childrenMap
           else childrenMap) m spans !! k
  = match filter (isChildOf k) spans with
    | [] => m !! k
    | l => Some ((m !!! k) ++ l)
    end.
Proof.
  revert m. induction spans as [|s spans IH]; intros m; simpl; [done|].
  rewrite IH, filter_cons.
  destruct (hasParent s) eqn:Hs.
  - destruct (decide (parentKey s = k)) as [<-|Hne].
    + rewrite decide_True by done.
      rewrite lookup_total_insert_eq, lookup_insert_eq.
      destruct (filter _ spans); simpl; [done|]. by rewrite <- app_assoc.
    + rewrite decide_False by (intros [_ ?]; done).
      by rewrite lookup_total_insert_ne, lookup_insert_ne.
  - rewrite decide_False by (intros [? _]; congruence). done.
Qed.

Lemma build_childrenMap_lookup spans k :
  build_childrenMap spans !! k
  = match filter (isChildOf k) spans with
    | [] => None
    | l => Some l
    end.
Proof.
  unfold build_childrenMap. rewrite build_childrenMap_fold.
  by rewrite lookup_total_empty, lookup_empty.
Qed.

Lemma build_childrenMap_lookup_total spans k :
  build_childrenMap spans !!! k = filter (isChildOf k) spans.
Proof.
  rewrite lookup_total_alt, build_childrenMap_lookup.
  by destruct (filter _ spans).
Qed.

(** The [range] loop: each key once, so each entry is sorted once, in
    whatever order the keys come. *)
Lemma sort_children_lookup order (cm : gmap string (list SpanStub)) k :
  NoDup order →
  sort_children order cm !! k
  = if decide (k ∈ order) then sort_Slice startBefore <$> cm !! k else cm !! k.
Proof.
  unfold sort_children. revert cm.
  induction order as [|pid order IH]; intros cm Hnd; cbn [foldl].
  - destruct (decide (k ∈ [])) as [Hin|]; [by apply elem_of_nil in Hin | done].
  - apply NoDup_cons in Hnd as [Hpid Hnd]. rewrite IH by done.
    destruct (decide (k = pid)) as [->|Hne].
    + destruct (decide (pid ∈ order)); [done|].
      destruct (decide (pid ∈ pid :: order)) as [|Hn]; [|exfalso; apply Hn; left].
      by rewrite lookup_alter_eq.
    + rewrite lookup_alter_ne by done.
      destruct (decide (k ∈ order)) as [Hin|Hin];
        destruct (decide (k ∈ pid :: order)) as [Hin'|Hin']; try done.
      * exfalso. apply Hin'. by right.
      * apply elem_of_cons in Hin' as [?|?]; done.
Qed.

Lemma sort_children_range order (cm : gmap string (list SpanStub)) :
  range_order order cm →
  sort_children order cm = sort_Slice startBefore <$> cm.
Proof.
  intros Hperm. apply map_eq. intros k.
  assert (NoDup order) as Hnd.
  { unfold range_order in Hperm. rewrite Hperm. apply NoDup_elements. }
  rewrite sort_children_lookup, lookup_fmap by done.
  destruct (decide (k ∈ order)) as [|Hk]; [done|].
  unfold range_order in Hperm. rewrite Hperm, elem_of_elements, elem_of_dom in Hk.
  destruct (cm !! k); [|done]. exfalso. eauto.
Qed.

Lemma forest_lookup order spans k :
  range_order order (build_childrenMap spans) →
  forest order spans !! k
  = match filter (isChildOf k) spans with
    | [] => None
    | l => Some (sort_Slice startBefore l)
    end.
Proof.
  intros Hrange. unfold forest. rewrite sort_children_range by done.
  rewrite lookup_fmap, build_childrenMap_lookup.
  by destruct (filter _ spans).
Qed.

Lemma PrintSpanTree_unfold fuel order w spans :
  PrintSpanTree fuel order w spans
  = match spans with
    | [] => Some w
    | _ => print_roots fuel (forest order spans) w (sorted_roots spans)
    end.
Proof. by destruct spans. Qed.

End Forest.

(** ** A sort that keeps the promise *)

Lemma StrictWeak_asym {A} (less : A → A → bool) a b :
  StrictWeak less → less a b = true → less b a = false.
Proof.
  intros Hsw Hab. destruct (less b a) eqn:Hba; [|done].
  by rewrite <- (sw_irrefl less Hsw a), (sw_trans less Hsw a b a).
Qed.

Lemma StronglySorted_weaken {A} (R R' : A → A → Prop) l :
  (∀ a b, R a b → R' a b) → StronglySorted R l → StronglySorted R' l.
Proof.
  intros HR. induction 1 as [|a l Hl IH Ha]; constructor; [done|].
  eapply Forall_impl; [exact Ha | auto].
Qed.

Section insertion_spec.
Context {A : Type} (less : A → A → bool).

Lemma insert_perm x l : InsertionSort.insert less x l ≡ₚ x :: l.
Proof.
  induction l as [|y l IH]; simpl; [done|].
  destruct (less x y); [done|]. by rewrite IH, Permutation_swap.
Qed.

Lemma sort_perm x : InsertionSort.sort less x ≡ₚ x.
Proof.
  unfold InsertionSort.sort.
  assert (∀ acc, foldl (λ sorted e, InsertionSort.insert less e sorted) acc x ≡ₚ acc ++ x)
    as Hgen; [|apply Hgen].
  induction x as [|e x IH]; intros acc; simpl.
  - by rewrite app_nil_r.
  - rewrite IH, insert_perm. simpl. apply Permutation_middle.
Qed.

Lemma insert_sorted x l :
  StrictWeak less →
  StronglySorted (λ a b, less b a = false) l →
  StronglySorted (λ a b, less b a = false) (InsertionSort.insert less x l).
Proof.
  intros Hsw. induction 1 as [|y l Hl IH Hy]; simpl.
  - repeat constructor.
  - destruct (less x y) eqn:Hxy.
    + constructor; [by constructor|]. constructor.
      * by apply StrictWeak_asym.
      * eapply Forall_impl; [exact Hy|]. intros z Hzy. simpl in Hzy.
        destruct (less z x) eqn:Hzx; [|done].
        by rewrite <- Hzy, (sw_trans less Hsw z x y).
    + constructor; [done|]. rewrite insert_perm. by constructor.
Qed.

Lemma sort_sorted x :
  StrictWeak less → StronglySorted (λ a b, less b a = false) (InsertionSort.sort less x).
Proof.
  intros Hsw. unfold InsertionSort.sort.
  assert (∀ acc, StronglySorted (λ a b, less b a = false) acc →
            StronglySorted (λ a b, less b a = false)
              (foldl (λ sorted e, InsertionSort.insert less e sorted) acc x)) as Hgen.
  { induction x as [|e x IH]; intros acc Hacc; simpl; [done|].
    by apply IH, insert_sorted. }
  apply Hgen. constructor.
Qed.

End insertion_spec.

#[global] Instance InsertionSort_spec : @SortSpec InsertionSort.Sort_instance.
Proof.
  split.
  - intros A less x. apply sort_perm.
  - intros A less x. apply sort_sorted.
Qed.

(** ** [isErrorAttribute] *)

(** C8. The default classifier emphasizes an attribute exactly when its key
    is one of the three error keys or its value is a string equal to one of
    the two sentinel strings; in every other case it answers [false]. *)
Theorem isErrorAttribute_iff key val :
  isErrorAttribute key val = true
  ↔ key ∈ errorKeys ∨ ∃ s, val = VString s ∧ s ∈ errorSentinels.
Proof.
  assert (∀ s : string, s ∈ errorSentinels ↔ s = "error" ∨ s = "not_found") as Hsent.
  { intros s. unfold errorSentinels. rewrite !elem_of_cons, elem_of_nil. tauto. }
  assert (key ∈ errorKeys
          ↔ key = "error" ∨ key = "error_code" ∨ key = "rpc.connect_rpc.error_code")
    as ->.
  { unfold errorKeys. rewrite !elem_of_cons, elem_of_nil. tauto. }
  unfold isErrorAttribute.
  destruct (String.eqb_spec key "error") as [->|Hk1]; simpl; [split; auto|].
  destruct (String.eqb_spec key "error_code") as [->|Hk2]; simpl; [split; auto|].
  destruct (String.eqb_spec key "rpc.connect_rpc.error_code") as [->|Hk3]; simpl;
    [split; auto 6|].
  assert (¬ (key = "error" ∨ key = "error_code" ∨ key = "rpc.connect_rpc.error_code"))
    as Hkey by tauto.
  destruct val as [| | |s| | | | |];
    try (split; [done | intros [?|(s' & Hs' & _)]; [done | discriminate]]).
  destruct (String.eqb_spec s "error") as [->|Hs1]; simpl.
  { split; [|done]. intros _. right. exists "error". rewrite Hsent. auto. }
  destruct (String.eqb_spec s "not_found") as [->|Hs2]; simpl.
  { split; [|done]. intros _. right. exists "not_found". rewrite Hsent. auto. }
  split; [done|]. intros [?|(s' & [= <-] & Hs')]; [done|].
  apply Hsent in Hs'. tauto.
Qed.

(** Not emphasized, in the other direction. *)
Corollary isErrorAttribute_false key val :
  isErrorAttribute key val = false
  ↔ (key ∉ errorKeys) ∧ (∀ s, val = VString s → s ∉ errorSentinels).
Proof.
  rewrite <- not_true_iff_false, isErrorAttribute_iff. split.
  - intros Hn. split; [intros Hk; apply Hn; by left|]. intros s -> Hs. apply Hn. right. by exists s.
  - intros [Hk Hv] [?|(s & -> & Hs)]; [done|]. by apply (Hv s).
Qed.

(** ** Roots, child lists and their order *)

Lemma startBefore_StrictWeak : StrictWeak startBefore.
Proof.
  unfold startBefore, Time_Before. split.
  - intros a. apply Z.ltb_irrefl.
  - intros a b c ?%Z.ltb_lt ?%Z.ltb_lt. apply Z.ltb_lt. lia.
  - intros a b c ?%Z.ltb_ge ?%Z.ltb_ge. apply Z.ltb_ge. lia.
Qed.

Lemma sort_Slice_byStart `{SortSpec} (x : list SpanStub) :
  StronglySorted byStart (sort_Slice startBefore x).
Proof.
  eapply StronglySorted_weaken; [|apply sort_Slice_sorted, startBefore_StrictWeak].
  intros a b Hba. unfold startBefore, Time_Before in Hba. unfold byStart.
  by apply Z.ltb_ge in Hba.
Qed.

(** C9. On the empty slice [PrintSpanTree] returns at once: the writer
    holds what it held before, not one byte more, and nothing fails. *)
Theorem PrintSpanTree_empty `{Lipgloss, Fmt, Sort} fuel order w :
  PrintSpanTree fuel order w [] = Some w.
Proof. reflexivity. Qed.

(** C2. A span is in the root list that [PrintSpanTree] computes exactly
    when it is in the input and its parent identifier is not valid; the
    child list of a key holds, in the order of the input, exactly the spans
    with a valid parent identifier of that key, so a span with a valid
    parent is in the child list of its parent key and not among the roots.
    These two structures are the ones [PrintSpanTree] sorts and prints. *)
Theorem roots_iff_no_valid_parent `{Lipgloss, Fmt, Sort} spans :
  (∀ s, s ∈ find_roots spans ↔ s ∈ spans ∧ hasParent s = false) ∧
  (∀ pid, build_childrenMap spans !!! pid = filter (isChildOf pid) spans) ∧
  (∀ s, s ∈ spans → hasParent s = true →
        s ∈ build_childrenMap spans !!! parentKey s ∧ s ∉ find_roots spans) ∧
  (∀ fuel order w, spans ≠ [] →
     PrintSpanTree fuel order w spans
     = print_roots fuel (sort_children order (build_childrenMap spans)) w
         (sort_Slice startBefore (find_roots spans))).
Proof.
  assert (∀ s, s ∈ find_roots spans ↔ s ∈ spans ∧ hasParent s = false) as Hroots.
  { intros s. rewrite find_roots_filter, list_elem_of_filter. tauto. }
  split; [exact Hroots|]. split; [apply build_childrenMap_lookup_total|]. split.
  - intros s Hs Hp. split.
    + rewrite build_childrenMap_lookup_total. apply list_elem_of_filter. by split.
    + rewrite Hroots. intros [_ Hn]. congruence.
  - intros fuel order w Hne. by destruct spans.
Qed.

(** C1, as the code has it.  The root list and every child list that
    [PrintSpanTree] renders hold the spans collected for them and are
    ordered non-decreasing by start time.  The order among spans of equal
    start time is the one [sort.Slice] leaves, on which it promises
    nothing. *)
Theorem roots_and_children_by_start_time `{SortSpec} spans order :
  range_order order (build_childrenMap spans) →
  (StronglySorted byStart (sorted_roots spans)
   ∧ sorted_roots spans ≡ₚ find_roots spans) ∧
  (∀ pid children, forest order spans !! pid = Some children →
     StronglySorted byStart children
     ∧ children ≡ₚ build_childrenMap spans !!! pid).
Proof.
  intros Hrange. split.
  - split; [apply sort_Slice_byStart | apply sort_Slice_perm].
  - intros pid children Hlookup. unfold forest in Hlookup.
    rewrite sort_children_range, lookup_fmap in Hlookup by done.
    rewrite lookup_total_alt.
    destruct (build_childrenMap spans !! pid) as [l|]; simpl in *; [|done].
    injection Hlookup as <-.
    split; [apply sort_Slice_byStart | apply sort_Slice_perm].
Qed.

Lemma roots_and_children_by_start_time_witness :
  let order := elements (dom (build_childrenMap TestData.spans)) in
  (StronglySorted byStart (@sorted_roots InsertionSort.Sort_instance TestData.spans)
   ∧ @sorted_roots InsertionSort.Sort_instance TestData.spans ≡ₚ find_roots TestData.spans) ∧
  (∀ pid children,
     @forest InsertionSort.Sort_instance order TestData.spans !! pid = Some children →
     StronglySorted byStart children
     ∧ children ≡ₚ build_childrenMap TestData.spans !!! pid).
Proof.
  intros order.
  apply (@roots_and_children_by_start_time InsertionSort.Sort_instance InsertionSort_spec
           TestData.spans order).
  unfold range_order, order. reflexivity.
Defined.

(** C1, as stated, fails: Go's [sort.Slice] does not keep spans of equal
    start time in input order.  Of thirteen roots the first starts last and
    the others start together; the sort moves the seventh to the front.
    The same happens in the child list of a root with thirteen children. *)
Lemma sort_Slice_reorders_equal_start_times :
  map Name (@sorted_roots go_sort Examples.roots13)
  = ["root-6"; "root-1"; "root-2"; "root-3"; "root-4"; "root-5"; "root-7";
     "root-8"; "root-9"; "root-10"; "root-11"; "root-12"; "root-0"]
  ∧ ¬ ties_in_input_order (find_roots Examples.roots13)
        (@sorted_roots go_sort Examples.roots13)
  ∧ ¬ ties_in_input_order
        (build_childrenMap Examples.family13 !!! spanKey TestData.rootSpan)
        (@forest go_sort (elements (dom (build_childrenMap Examples.family13)))
           Examples.family13 !!! spanKey TestData.rootSpan).
Proof.
  split; [by vm_compute|]. split.
  - intros Hties. specialize (Hties TestData.now). vm_compute in Hties. discriminate.
  - intros Hties. specialize (Hties TestData.now). vm_compute in Hties. discriminate.
Qed.

(** What the documentation of [sort.Slice] promises does not fix the order
    of equal elements either. *)
Lemma reversing_sort_spec : @SortSpec reversing_sort.
Proof.
  split; intros A less x; simpl.
  - by rewrite sort_perm, reverse_Permutation.
  - apply sort_sorted.
Qed.

Lemma SortSpec_allows_reordering :
  ∃ S : Sort, @SortSpec S ∧
    ¬ ties_in_input_order (find_roots [Examples.rootNo 1 TestData.now; Examples.rootNo 2 TestData.now])
        (@sorted_roots S [Examples.rootNo 1 TestData.now; Examples.rootNo 2 TestData.now]).
Proof.
  exists reversing_sort. split; [apply reversing_sort_spec|].
  intros Hties. specialize (Hties TestData.now). vm_compute in Hties. discriminate.
Qed.

(** ** Determinism *)

(** C6. [PrintSpanTree] is a function of its input: the one thing a run is
    free to choose, the order in which [range] walks the keys of the
    children map, does not reach the output.  Two runs on the same spans
    write the same bytes. *)
Theorem PrintSpanTree_deterministic `{Lipgloss, Fmt, Sort} fuel w spans order1 order2 :
  range_order order1 (build_childrenMap spans) →
  range_order order2 (build_childrenMap spans) →
  PrintSpanTree fuel order1 w spans = PrintSpanTree fuel order2 w spans.
Proof.
  intros Hrange1 Hrange2. unfold PrintSpanTree.
  by rewrite !sort_children_range.
Qed.

Lemma PrintSpanTree_deterministic_witness :
  @PrintSpanTree PlainLipgloss.lipgloss count_fmt go_sort 3
    ["1e1f202122232425"; "0a0b0c0d0e0f1011"] "" TestData.spans
  = @PrintSpanTree PlainLipgloss.lipgloss count_fmt go_sort 3
      ["0a0b0c0d0e0f1011"; "1e1f202122232425"] "" TestData.spans.
Proof.
  apply (@PrintSpanTree_deterministic PlainLipgloss.lipgloss count_fmt go_sort).
  - unfold range_order. vm_compute. reflexivity.
  - unfold range_order. vm_compute. apply perm_swap.
Defined.

(** ** Inputs without roots *)

(** C10. When the input is not empty and every span has a valid parent
    identifier, no span is a root: [PrintSpanTree] never calls
    [buildSpanBox], returns whatever the depth allowed, and leaves the
    writer as it was. *)
Theorem PrintSpanTree_no_roots `{Lipgloss, Fmt, SortSpec} fuel order w spans :
  spans ≠ [] →
  (∀ s, s ∈ spans → hasParent s = true) →
  find_roots spans = [] ∧ sorted_roots spans = [] ∧
  PrintSpanTree fuel order w spans = Some w.
Proof.
  intros Hne Hvalid.
  assert (find_roots spans = []) as Hroots.
  { destruct (find_roots spans) as [|r roots] eqn:Heq; [done|].
    assert (r ∈ find_roots spans) as Hr by (rewrite Heq; left).
    rewrite find_roots_filter in Hr. apply list_elem_of_filter in Hr as [Hn Hin].
    rewrite (Hvalid r Hin) in Hn. done. }
  assert (sorted_roots spans = []) as Hsorted.
  { unfold sorted_roots. rewrite Hroots. apply Permutation_nil_r, sort_Slice_perm. }
  split; [done|]. split; [done|].
  rewrite PrintSpanTree_unfold. destruct spans; [done|]. by rewrite Hsorted.
Qed.

Lemma PrintSpanTree_no_roots_witness :
  find_roots [Examples.ping; Examples.pong] = [] ∧
  @sorted_roots InsertionSort.Sort_instance [Examples.ping; Examples.pong] = [] ∧
  @PrintSpanTree PlainLipgloss.lipgloss count_fmt InsertionSort.Sort_instance 0
    (elements (dom (build_childrenMap [Examples.ping; Examples.pong]))) ""
    [Examples.ping; Examples.pong] = Some "".
Proof.
  apply (@PrintSpanTree_no_roots PlainLipgloss.lipgloss count_fmt
           InsertionSort.Sort_instance InsertionSort_spec).
  - discriminate.
  - intros s Hs. apply elem_of_cons in Hs as [->|Hs]; [reflexivity|].
    apply elem_of_cons in Hs as [->|Hs]; [reflexivity|].
    by apply elem_of_nil in Hs.
Defined.

(** The same two spans under Go's own sort, whatever the depth allowed. *)
Example ping_pong_prints_nothing :
  @PrintSpanTree PlainLipgloss.lipgloss count_fmt go_sort 0
    ["0000000000000001"; "0000000000000002"] "" [Examples.ping; Examples.pong] = Some "".
Proof. by vm_compute. Qed.

(** ** Lines *)

Lemma free_of_append sep (a b : string) :
  free_of sep a → free_of sep b → free_of sep (a +:+ b).
Proof.
  induction a as [|c a IH]; [done|]. rewrite append_cons. simpl.
  intros [Hc Ha] Hb. auto.
Qed.

Lemma strings_Split_nonempty s sep : strings_Split s sep ≠ [].
Proof.
  destruct s as [|c s]; simpl; [done|].
  destruct (Ascii.eqb c sep); [done|]. by destruct (strings_Split s sep).
Qed.

Lemma strings_Split_free s sep : Forall (free_of sep) (strings_Split s sep).
Proof.
  induction s as [|c s IH]; simpl.
  - by repeat constructor.
  - destruct (Ascii.eqb_spec c sep) as [->|Hc]; [by constructor|].
    destruct (strings_Split s sep) as [|line lines]; [by repeat constructor|].
    apply Forall_cons in IH as [Hline Hlines]. by repeat constructor.
Qed.

Lemma strings_Split_line line rest sep :
  free_of sep line →
  strings_Split (line +:+ String sep rest) sep = line :: strings_Split rest sep.
Proof.
  induction line as [|c line IH]; intros Hfree.
  - rewrite append_nil_l. simpl. by rewrite Ascii.eqb_refl.
  - destruct Hfree as [Hc Hfree]. rewrite append_cons. simpl.
    destruct (Ascii.eqb_spec c sep) as [|_]; [done|]. by rewrite IH.
Qed.

Lemma strings_Split_last line sep :
  free_of sep line → strings_Split line sep = [line].
Proof.
  induction line as [|c line IH]; intros Hfree; [done|].
  destruct Hfree as [Hc Hfree]. simpl.
  destruct (Ascii.eqb_spec c sep) as [|_]; [done|]. by rewrite IH.
Qed.

(** Joining lines and splitting again gives the lines back. *)
Lemma strings_Split_Join lines :
  lines ≠ [] → Forall (free_of newline) lines →
  strings_Split (strings_Join lines nl) newline = lines.
Proof.
  induction lines as [|line lines IH]; [done|]. intros _ Hfree.
  apply Forall_cons in Hfree as [Hline Hlines].
  destruct lines as [|line' lines].
  - simpl. by apply strings_Split_last.
  - change (strings_Join (line :: line' :: lines) nl)
      with (line +:+ nl +:+ strings_Join (line' :: lines) nl).
    unfold nl at 1. rewrite append_cons, append_nil_l.
    rewrite strings_Split_line by done. by rewrite IH.
Qed.

(** [indentAllLines] puts the prefix in front of every line and changes
    nothing else. *)
Lemma indentAllLines_lines s indent :
  free_of newline indent →
  strings_Split (indentAllLines s indent) newline
  = map (λ line, indent +:+ line) (strings_Split s newline).
Proof.
  intros Hindent. unfold indentAllLines. apply strings_Split_Join.
  - pose proof (strings_Split_nonempty s newline). by destruct (strings_Split s newline).
  - apply Forall_map. eapply Forall_impl; [apply strings_Split_free|].
    intros line Hline. by apply free_of_append.
Qed.

Lemma childIndent_free : free_of newline childIndent.
Proof. unfold childIndent, newline. simpl. repeat split; discriminate. Qed.

(** ** The renderer *)

Section Renderer.
Context `{Lipgloss, Fmt}.

Lemma buildSpanBox_S fuel span cm :
  buildSpanBox (S fuel) span cm
  = childBoxes ← mapM (λ child, buildSpanBox fuel child cm) (cm !!! spanKey span);
    Some (boxStyle_Render (JoinVertical
      ((fieldLines span ++ attributeLines span) ++
       map (λ childBox, indentAllLines childBox childIndent) childBoxes))).
Proof. reflexivity. Qed.

(** A call that returns under one bound returns the same block under every
    larger bound. *)
Lemma buildSpanBox_mono fuel fuel' span cm box :
  buildSpanBox fuel span cm = Some box → fuel ≤ fuel' →
  buildSpanBox fuel' span cm = Some box.
Proof.
  revert fuel' span box. induction fuel as [|fuel IH]; intros fuel' span box Hbox Hle;
    [done|].
  destruct fuel' as [|fuel']; [lia|].
  rewrite buildSpanBox_S in *.
  destruct (mapM _ _) as [childBoxes|] eqn:Hboxes; [|done].
  apply mapM_Some in Hboxes.
  assert (mapM (λ child, buildSpanBox fuel' child cm) (cm !!! spanKey span)
          = Some childBoxes) as ->; [|done].
  apply mapM_Some. eapply Forall2_impl; [exact Hboxes|].
  intros child childBox Hchild. apply (IH fuel'); [done | lia].
Qed.

Lemma returns_functional cm span box1 box2 :
  returns cm span box1 → returns cm span box2 → box1 = box2.
Proof.
  intros [fuel1 H1'] [fuel2 H2'].
  apply (buildSpanBox_mono _ (fuel1 `max` fuel2)) in H1'; [|lia].
  apply (buildSpanBox_mono _ (fuel1 `max` fuel2)) in H2'; [|lia].
  congruence.
Qed.

(** What a returned block is made of. *)
Lemma returns_inv cm span box :
  returns cm span box →
  ∃ childBoxes,
    Forall2 (returns cm) (cm !!! spanKey span) childBoxes ∧
    box = boxStyle_Render (JoinVertical
      ((fieldLines span ++ attributeLines span) ++
       map (λ childBox, indentAllLines childBox childIndent) childBoxes)).
Proof.
  intros [[|fuel] Hbox]; [done|]. rewrite buildSpanBox_S in Hbox.
  destruct (mapM _ _) as [childBoxes|] eqn:Hboxes; [|done].
  injection Hbox as <-. exists childBoxes. split; [|done].
  apply mapM_Some in Hboxes. eapply Forall2_impl; [exact Hboxes|].
  intros child childBox Hchild. by exists fuel.
Qed.

Lemma bullet_has_key attr : Substring (Key attr) (bullet attr).
Proof. exists "• ", (" = " +:+ Sprintf_v (AValue (Val attr))). reflexivity. Qed.

Lemma bullet_has_value attr : Substring (Sprintf_v (AValue (Val attr))) (bullet attr).
Proof.
  exists ("• " +:+ Key attr +:+ " = "), "". unfold bullet.
  by rewrite append_nil_r, !append_assoc.
Qed.

End Renderer.

Section Blocks.
Context `{Lipgloss, Fmt}.

(** C5. The block [buildSpanBox] returns for a span is the frame around
    the vertical join of: the field lines, the "Attributes:" header, one
    bullet line per attribute in the order of [span.Attributes], and the
    child blocks.  The bullet line of an attribute is the indent and the
    styled text "• key = value", which holds the key and the [%v] form of
    the value as they are; the classifier picks the style of the line and
    nothing else.  Without attributes the header is followed by no
    bullet. *)
Theorem attributes_rendered_in_order cm span box :
  returns cm span box →
  ∃ bullets childBlocks,
    box = boxStyle_Render (JoinVertical
            (fieldLines span ++ [labelStyle_Render "Attributes:"] ++ bullets ++ childBlocks)) ∧
    Forall2 (λ attr line,
               line = childIndent +:+
                 (if isErrorAttribute (Key attr) (Val attr)
                  then errorHighlightStyle_Render else valueStyle_Render) (bullet attr)
               ∧ bullet attr = "• " +:+ Key attr +:+ " = " +:+ Sprintf_v (AValue (Val attr))
               ∧ Substring (Key attr) (bullet attr)
               ∧ Substring (Sprintf_v (AValue (Val attr))) (bullet attr))
            (Attributes span) bullets ∧
    (Attributes span = [] → bullets = []) ∧
    length childBlocks = length (cm !!! spanKey span).
Proof.
  intros (childBoxes & Hchildren & ->)%returns_inv.
  exists (map attrLine (Attributes span)),
         (map (λ childBox, indentAllLines childBox childIndent) childBoxes).
  split; [|split; [|split]].
  - unfold attributeLines. by rewrite <- !app_assoc.
  - apply Forall2_fmap_r, Forall_Forall2_diag, Forall_forall. intros attr _.
    split; [done|]. split; [done|]. split; [apply bullet_has_key | apply bullet_has_value].
  - by intros ->.
  - rewrite length_map. symmetry. by eapply Forall2_length.
Qed.

(** C4, as the code has it.  The block of a child, with the indent in
    front of every one of its lines, is one of the blocks that the parent
    joins vertically and then frames: it goes whole into
    [lipgloss.JoinVertical], and the parent's block is what the frame makes
    of the join. *)
Theorem child_block_joined_into_parent cm parent pbox child :
  returns cm parent pbox →
  child ∈ cm !!! spanKey parent →
  ∃ cbox before after,
    returns cm child cbox ∧
    pbox = boxStyle_Render (JoinVertical
             (before ++ indentAllLines cbox childIndent :: after)) ∧
    strings_Split (indentAllLines cbox childIndent) newline
    = map (λ line, childIndent +:+ line) (strings_Split cbox newline).
Proof.
  intros (childBoxes & Hchildren & ->)%returns_inv Hchild.
  apply list_elem_of_split in Hchild as (l1 & l2 & Hsplit).
  rewrite Hsplit in Hchildren.
  apply Forall2_app_inv_l in Hchildren as (k1 & k2 & Hk1 & Hk2 & ->).
  apply Forall2_cons_inv_l in Hk2 as (cbox & k2' & Hcbox & Hk2 & ->).
  exists cbox,
    ((fieldLines parent ++ attributeLines parent) ++
     map (λ childBox, indentAllLines childBox childIndent) k1),
    (map (λ childBox, indentAllLines childBox childIndent) k2').
  split; [done|]. split.
  - by rewrite map_app, <- !app_assoc.
  - apply indentAllLines_lines, childIndent_free.
Qed.

End Blocks.

(** ** Runs on the spans of the test *)

Section Runs.
#[local] Existing Instance PlainLipgloss.lipgloss.
#[local] Existing Instance count_fmt.

Lemma attributes_rendered_in_order_witness :
  ∃ box bullets childBlocks,
    buildSpanBox 2 TestData.childSpan2 Examples.test_forest = Some box ∧
    box = boxStyle_Render (JoinVertical
            (fieldLines TestData.childSpan2 ++ [labelStyle_Render "Attributes:"]
             ++ bullets ++ childBlocks)) ∧
    Forall2 (λ attr line,
               line = childIndent +:+
                 (if isErrorAttribute (Key attr) (Val attr)
                  then errorHighlightStyle_Render else valueStyle_Render) (bullet attr)
               ∧ bullet attr = "• " +:+ Key attr +:+ " = " +:+ Sprintf_v (AValue (Val attr))
               ∧ Substring (Key attr) (bullet attr)
               ∧ Substring (Sprintf_v (AValue (Val attr))) (bullet attr))
            (Attributes TestData.childSpan2) bullets ∧
    (Attributes TestData.childSpan2 = [] → bullets = []) ∧
    length childBlocks
    = length (Examples.test_forest !!! spanKey TestData.childSpan2).
Proof.
  destruct (buildSpanBox 2 TestData.childSpan2 Examples.test_forest) as [box|] eqn:Hbox;
    [|by vm_compute in Hbox].
  destruct (attributes_rendered_in_order Examples.test_forest TestData.childSpan2 box)
    as (bullets & childBlocks & Hlines); [exists 2; exact Hbox|].
  exists box, bullets, childBlocks. split; [reflexivity | exact Hlines].
Defined.

Lemma child_block_joined_into_parent_witness :
  ∃ pbox cbox before after,
    buildSpanBox 3 TestData.rootSpan Examples.test_forest = Some pbox ∧
    returns Examples.test_forest TestData.childSpan1 cbox ∧
    pbox = boxStyle_Render (JoinVertical
             (before ++ indentAllLines cbox childIndent :: after)) ∧
    strings_Split (indentAllLines cbox childIndent) newline
    = map (λ line, childIndent +:+ line) (strings_Split cbox newline).
Proof.
  destruct (buildSpanBox 3 TestData.rootSpan Examples.test_forest) as [pbox|] eqn:Hpbox;
    [|by vm_compute in Hpbox].
  destruct (child_block_joined_into_parent Examples.test_forest TestData.rootSpan pbox TestData.childSpan1)
    as (cbox & before & after & Hcbox & Heq & Hlines).
  - exists 3. exact Hpbox.
  - vm_compute. left.
  - exists pbox, cbox, before, after.
    split; [reflexivity|]. split; [exact Hcbox|]. split; [exact Heq | exact Hlines].
Defined.

(** C4, as stated, fails.  The frame lipgloss draws around the parent's
    content puts its border and padding on every line, and the join fills
    every line up to the widest: between two lines of the child's block the
    parent's block holds more than a line feed.  So the indented block of
    [child-span-1] is nowhere a contiguous part of the block of
    [root-span]. *)
Lemma indented_child_block_not_contiguous :
  ∃ pbox cbox,
    returns Examples.test_forest TestData.rootSpan pbox ∧
    returns Examples.test_forest TestData.childSpan1 cbox ∧
    TestData.childSpan1 ∈ Examples.test_forest !!! spanKey TestData.rootSpan ∧
    ¬ Substring (indentAllLines cbox childIndent) pbox.
Proof.
  destruct (buildSpanBox 3 TestData.rootSpan Examples.test_forest) as [pbox|] eqn:Hpbox;
    [|by vm_compute in Hpbox].
  destruct (buildSpanBox 1 TestData.childSpan1 Examples.test_forest) as [cbox|] eqn:Hcbox;
    [|by vm_compute in Hcbox].
  exists pbox, cbox. split; [by exists 3|]. split; [by exists 1|]. split.
  - vm_compute. left.
  - rewrite <- strings_Contains_spec. apply not_true_iff_false.
    vm_compute in Hpbox, Hcbox. injection Hpbox as <-. injection Hcbox as <-.
    by vm_compute.
Qed.

(** What lipgloss keeps: each line of the indented child block lies within
    one line of the parent's block. *)
Example indented_child_lines_within_parent_lines :
  match buildSpanBox 3 TestData.rootSpan Examples.test_forest, buildSpanBox 1 TestData.childSpan1 Examples.test_forest with
  | Some pbox, Some cbox =>
      forallb (λ line, existsb (λ pline, strings_Contains pline line)
                         (strings_Split pbox newline))
        (strings_Split (indentAllLines cbox childIndent) newline) = true
  | _, _ => False
  end.
Proof. by vm_compute. Qed.

End Runs.

(** ** Depth of the recursion *)

Section Depth.
Context `{Lipgloss, Fmt}.

Lemma buildSpanBox_is_Some_S fuel span cm :
  is_Some (buildSpanBox (S fuel) span cm)
  ↔ ∀ child, child ∈ cm !!! spanKey span → is_Some (buildSpanBox fuel child cm).
Proof.
  rewrite buildSpanBox_S, <- Forall_forall. split.
  - intros [box Hbox]. destruct (mapM _ _) as [childBoxes|] eqn:Hboxes; [|done].
    apply (mapM_is_Some_1 (λ child, buildSpanBox fuel child cm)). by exists childBoxes.
  - intros Hall. apply (mapM_is_Some_2 (λ child, buildSpanBox fuel child cm)) in Hall
      as [childBoxes ->]. by eexists.
Qed.

(** A call that does not return under the bound [fuel] has a path of
    [fuel + 1] spans below it. *)
Lemma buildSpanBox_None_chain fuel span cm :
  buildSpanBox fuel span cm = None →
  ∃ p, chain cm span p ∧ length p = S fuel.
Proof.
  revert span. induction fuel as [|fuel IH]; intros span Hnone.
  - exists [span]. split; [constructor | done].
  - rewrite buildSpanBox_S in Hnone.
    destruct (mapM _ _) as [childBoxes|] eqn:Hboxes; [done|].
    apply mapM_None_1, Exists_exists in Hboxes as (child & Hchild & Hnone').
    destruct (IH child Hnone') as (p & Hp & Hlen).
    exists (span :: p). split; [by econstructor | by rewrite length_cons, Hlen].
Qed.

(** A call that returns under the bound [fuel] has no longer path below
    it. *)
Lemma buildSpanBox_Some_chain fuel span cm p :
  chain cm span p → is_Some (buildSpanBox fuel span cm) → length p ≤ fuel.
Proof.
  intros Hchain. revert fuel.
  induction Hchain as [s|s c p Hc Hchain IH]; intros [|fuel] Hsome;
    try (by destruct Hsome).
  - simpl. lia.
  - rewrite buildSpanBox_is_Some_S in Hsome. rewrite length_cons.
    apply le_n_S, IH, Hsome, Hc.
Qed.

Lemma recursion_depth_exists bound span cm :
  is_Some (buildSpanBox bound span cm) →
  ∃ d, d ≤ bound ∧ recursion_depth cm span d.
Proof.
  induction bound as [|bound IH]; intros Hsome; [by destruct Hsome|].
  destruct (buildSpanBox bound span cm) as [box|] eqn:Hbox.
  - destruct IH as (d & Hd & Hdepth); [by eexists|]. exists d. split; [lia | done].
  - exists (S bound). split; [done|]. intros fuel. split.
    + intros [box Hsome']. destruct (decide (S bound ≤ fuel)) as [|Hlt]; [done|].
      rewrite (buildSpanBox_mono fuel bound span cm box) in Hbox; [done | done | lia].
    + intros Hle. destruct Hsome as [box Hsome]. exists box.
      by apply (buildSpanBox_mono (S bound)).
Qed.

(** The depth of the recursion is the depth of the tree. *)
Lemma recursion_depth_tree_depth cm span d :
  recursion_depth cm span d → tree_depth cm span d.
Proof.
  intros Hdepth. split.
  - destruct d as [|d].
    + destruct (proj2 (Hdepth 0)) as [box Hbox]; [lia | done].
    + destruct (buildSpanBox d span cm) as [box|] eqn:Hbox.
      * assert (S d ≤ d); [|lia]. apply Hdepth. by eexists.
      * by apply buildSpanBox_None_chain.
  - intros p Hchain. apply (buildSpanBox_Some_chain d span cm); [done|].
    by apply Hdepth.
Qed.

Lemma print_roots_None fuel cm roots :
  foldl (λ w root,
           w ← w;
           treeStr ← buildSpanBox fuel root cm;
           Some (Fprintln w treeStr)) None roots = None.
Proof. by induction roots. Qed.

Lemma print_roots_cons fuel cm w root roots :
  print_roots fuel cm w (root :: roots)
  = treeStr ← buildSpanBox fuel root cm;
    print_roots fuel cm (Fprintln w treeStr) roots.
Proof.
  unfold print_roots. simpl.
  destruct (buildSpanBox fuel root cm); simpl; [done | apply print_roots_None].
Qed.

(** When every root returns under the bound, the loop over the roots writes
    the same bytes under every larger bound. *)
Lemma print_roots_returns bound cm roots w :
  (∀ root, root ∈ roots → is_Some (buildSpanBox bound root cm)) →
  ∃ out, ∀ fuel, bound ≤ fuel → print_roots fuel cm w roots = Some out.
Proof.
  revert w. induction roots as [|root roots IH]; intros w Hroots.
  - by exists w.
  - destruct (Hroots root) as [treeStr HtreeStr]; [left|].
    destruct (IH (Fprintln w treeStr)) as [out Hout]; [intros r Hr; apply Hroots; by right|].
    exists out. intros fuel Hfuel. rewrite print_roots_cons.
    rewrite (buildSpanBox_mono bound fuel root cm treeStr) by done.
    simpl. by apply Hout.
Qed.

End Depth.

(** ** Termination on an acyclic input *)

(** A rank that grows along every edge rules out a cycle. *)
Lemma acyclic_by_rank spans (rank : string → nat) :
  (∀ s, s ∈ spans → hasParent s = true → rank (parentKey s) < rank (spanKey s)) →
  acyclic spans.
Proof.
  intros Hrank.
  assert (∀ a b, tc (edge spans) a b → rank a < rank b) as Htc.
  { induction 1 as [a b (s & Hs & Hp & <- & <-)|a b c (s & Hs & Hp & <- & <-) _ IH].
    - by apply Hrank.
    - specialize (Hrank s Hs Hp). lia. }
  intros a Ha. apply Htc in Ha. lia.
Qed.

Section Termination.
Context `{Lipgloss, Fmt, SortSpec}.

(** The child lists of the forest hold spans of the input, under the key
    of their parent. *)
Lemma forest_children order spans k c :
  range_order order (build_childrenMap spans) →
  c ∈ forest order spans !!! k →
  c ∈ spans ∧ isChildOf k c.
Proof.
  intros Hrange. rewrite lookup_total_alt, forest_lookup by done.
  destruct (filter (isChildOf k) spans) as [|x l] eqn:Hfilter; simpl.
  - by intros ?%elem_of_nil.
  - rewrite sort_Slice_perm, <- Hfilter, list_elem_of_filter. tauto.
Qed.

Lemma chain_below order spans s q c :
  range_order order (build_childrenMap spans) →
  chain (forest order spans) s q → c ∈ tail q →
  tc (edge spans) (spanKey s) (spanKey c) ∧ c ∈ spans.
Proof.
  intros Hrange Hchain. revert c.
  induction Hchain as [s|s c' p Hc' Hchain IH]; intros c Hc; simpl in Hc.
  - by apply elem_of_nil in Hc.
  - apply forest_children in Hc' as [Hin [Hvalid Hkey]]; [|done].
    assert (edge spans (spanKey s) (spanKey c')) as Hedge by (by exists c').
    inversion Hchain as [s'|s' c'' p' Hc'' Hchain']; subst.
    + apply list_elem_of_singleton in Hc as ->. split; [apply tc_once, Hedge | exact Hin].
    + apply elem_of_cons in Hc as [->|Hc]; [split; [apply tc_once, Hedge | exact Hin]|].
      destruct (IH c) as [Htc Hcin]; [done|]. split; [|done].
      eapply tc_l; [exact Hedge | exact Htc].
Qed.

Lemma chain_keys_NoDup order spans s q :
  range_order order (build_childrenMap spans) → acyclic spans →
  chain (forest order spans) s q → NoDup (spanKey <$> tail q).
Proof.
  intros Hrange Hacyclic Hchain.
  induction Hchain as [s|s c p Hc Hchain IH]; simpl; [constructor|].
  inversion Hchain as [s'|s' c' p' Hc' Hchain']; subst; simpl.
  - apply NoDup_singleton.
  - simpl in IH. apply NoDup_cons. split; [|done].
    intros (x & Hkey & Hx)%list_elem_of_fmap.
    destruct (chain_below order spans c (c :: p') x) as [Htc _];
      [exact Hrange | exact Hchain | exact Hx |].
    rewrite <- Hkey in Htc. by apply (Hacyclic (spanKey c)).
Qed.

(** No path of an acyclic input is longer than the input plus the span it
    starts from. *)
Lemma chain_length_bound order spans s q :
  range_order order (build_childrenMap spans) → acyclic spans →
  chain (forest order spans) s q → length q ≤ S (length spans).
Proof.
  intros Hrange Hacyclic Hchain.
  assert (length (spanKey <$> tail q) ≤ length (spanKey <$> spans)) as Hle.
  { apply submseteq_length, NoDup_submseteq; [by eapply chain_keys_NoDup|].
    intros k (x & -> & Hx)%list_elem_of_fmap. apply list_elem_of_fmap.
    exists x. split; [done|]. by eapply chain_below. }
  rewrite !length_fmap in Hle. destruct q; simpl in *; lia.
Qed.

Lemma acyclic_returns order spans span :
  range_order order (build_childrenMap spans) → acyclic spans →
  is_Some (buildSpanBox (S (length spans)) span (forest order spans)).
Proof.
  intros Hrange Hacyclic.
  destruct (buildSpanBox (S (length spans)) span (forest order spans)) as [box|] eqn:Hbox;
    [by eexists|].
  apply buildSpanBox_None_chain in Hbox as (p & Hp & Hlen).
  apply (chain_length_bound order spans) in Hp; [lia | done..].
Qed.

End Termination.

Section Termination_theorems.
Context `{Lipgloss, Fmt, SortSpec}.

(** X1. When the graph of parent identifiers of the input has no cycle,
    [buildSpanBox] returns on every span, its depth of recursion is the
    depth of the tree under the span and at most the number of spans plus
    one, and [PrintSpanTree] returns, with the same bytes written whatever
    depth beyond that is allowed. *)
Theorem acyclic_input_terminates spans order w :
  range_order order (build_childrenMap spans) →
  acyclic spans →
  (∀ span, ∃ d,
     recursion_depth (forest order spans) span d ∧
     tree_depth (forest order spans) span d ∧
     1 ≤ d ≤ S (length spans)) ∧
  (∃ out, ∀ fuel, length spans < fuel → PrintSpanTree fuel order w spans = Some out).
Proof.
  intros Hrange Hacyclic. split.
  - intros span.
    destruct (recursion_depth_exists (S (length spans)) span (forest order spans))
      as (d & Hd & Hdepth); [by apply acyclic_returns|].
    exists d. split; [done|]. split; [by apply recursion_depth_tree_depth|].
    split; [|done]. destruct d as [|d]; [|lia].
    destruct (proj2 (Hdepth 0)) as [box Hbox]; [lia | done].
  - destruct (print_roots_returns (S (length spans)) (forest order spans)
                (sorted_roots spans) w) as [out Hout].
    { intros root _. by apply acyclic_returns. }
    destruct spans as [|s spans]; [by exists w|].
    exists out. intros fuel Hfuel. rewrite PrintSpanTree_unfold. apply Hout. lia.
Qed.

End Termination_theorems.

Lemma acyclic_input_terminates_witness :
  ∃ out, ∀ fuel, length TestData.spans < fuel →
    @PrintSpanTree PlainLipgloss.lipgloss count_fmt InsertionSort.Sort_instance fuel
      (elements (dom (build_childrenMap TestData.spans))) "" TestData.spans = Some out.
Proof.
  apply (@acyclic_input_terminates PlainLipgloss.lipgloss count_fmt
           InsertionSort.Sort_instance InsertionSort_spec TestData.spans).
  - unfold range_order. reflexivity.
  - apply (acyclic_by_rank _
      (λ k, if String.eqb k "0a0b0c0d0e0f1011" then 0
            else if String.eqb k "28292a2b2c2d2e2f" then 2 else 1)).
    intros s Hs Hp. unfold TestData.spans in Hs.
    repeat (apply elem_of_cons in Hs as [->|Hs];
            [first [discriminate Hp | vm_compute; lia]|]).
    by apply elem_of_nil in Hs.
Defined.

(** ** A cycle within reach *)

Section Cycle.
Context `{Lipgloss, Fmt}.

(** A call that returns leaves a smaller bound to every span further down
    a path. *)
Lemma buildSpanBox_Some_below fuel cm s p i x :
  chain cm s p → p !! i = Some x →
  is_Some (buildSpanBox fuel s cm) →
  i < fuel ∧ is_Some (buildSpanBox (fuel - i) x cm).
Proof.
  intros Hchain. revert fuel i.
  induction Hchain as [s|s c p Hc Hchain IH]; intros [|fuel] [|i] Hi Hsome;
    try (by destruct Hsome); simpl in Hi.
  - injection Hi as <-. split; [lia | done].
  - injection Hi as <-. split; [lia | done].
  - rewrite buildSpanBox_is_Some_S in Hsome.
    destruct (IH fuel i Hi (Hsome c Hc)) as [Hlt Hx]. split; [lia | done].
Qed.

Lemma chain_head cm s p : chain cm s p → ∃ p', p = s :: p'.
Proof. destruct 1; eauto. Qed.

(** What is left of a path from some span on is a path. *)
Lemma chain_suffix cm s pre x q : chain cm s (pre ++ x :: q) → chain cm x (x :: q).
Proof.
  revert s. induction pre as [|a pre IH]; intros s Hchain; simpl in Hchain.
  - destruct (chain_head _ _ _ Hchain) as [p' Heq]. by injection Heq as <- <-.
  - inversion Hchain as [s1 Heq1 Heq2|s1 c p1 Hc Hp Heq1 Heq2].
    + by destruct pre.
    + exact (IH c Hp).
Qed.

(** The paths below a span depend on its key only. *)
Lemma chain_same_key cm s s' p :
  spanKey s' = spanKey s → chain cm s (s :: p) → chain cm s' (s' :: p).
Proof.
  intros Hkey Hchain. inversion Hchain as [|s0 c p0 Hc Hp]; subst.
  - constructor.
  - econstructor; [|done]. by rewrite Hkey.
Qed.

(** A path from [x] that comes back to the key of [x] keeps the recursion
    from ever returning. *)
Lemma key_cycle_never_returns cm x mid y :
  chain cm x (x :: mid ++ [y]) → spanKey y = spanKey x →
  ∀ fuel x', spanKey x' = spanKey x → buildSpanBox fuel x' cm = None.
Proof.
  intros Hchain Hkey fuel.
  induction (lt_wf fuel) as [fuel _ IH]. intros x' Hx'.
  destruct (buildSpanBox fuel x' cm) as [box|] eqn:Hbox; [|done]. exfalso.
  apply (chain_same_key cm x x') in Hchain; [|done].
  destruct (buildSpanBox_Some_below fuel cm x' (x' :: mid ++ [y]) (S (length mid)) y)
    as [Hlt [box' Hbox']]; [done | | by eexists |].
  { simpl. by rewrite lookup_app_r, Nat.sub_diag. }
  rewrite (IH (fuel - S (length mid))) in Hbox'; [done | lia | done].
Qed.

Lemma print_roots_stuck fuel cm w roots r :
  r ∈ roots → buildSpanBox fuel r cm = None → print_roots fuel cm w roots = None.
Proof.
  revert w. induction roots as [|root roots IH]; intros w Hr Hnone.
  - by apply elem_of_nil in Hr.
  - rewrite print_roots_cons. apply elem_of_cons in Hr as [<-|Hr].
    + by rewrite Hnone.
    + destruct (buildSpanBox fuel root cm); simpl; [by apply IH | done].
Qed.

End Cycle.

Section Cycle_theorem.
Context `{Lipgloss, Fmt, SortSpec}.

(** X2. A cycle of keys within reach of a root: when a path of the forest
    leads from a root to a span [x] and on to a span [y] with the key of
    [x], the recursion of [buildSpanBox] has no end and [PrintSpanTree]
    does not return, whatever depth is allowed.  The code has no guard
    against it. *)
Theorem reachable_cycle_never_returns spans order w r pre x mid y :
  range_order order (build_childrenMap spans) →
  r ∈ spans → hasParent r = false →
  chain (forest order spans) r (pre ++ x :: mid ++ [y]) →
  spanKey y = spanKey x →
  ∀ fuel, PrintSpanTree fuel order w spans = None.
Proof.
  intros Hrange Hr Hroot Hchain Hkey fuel.
  assert (spans ≠ []) as Hne by (intros ->; by apply elem_of_nil in Hr).
  rewrite PrintSpanTree_unfold. destruct spans as [|s0 spans0] eqn:Hspans; [done|].
  rewrite <- Hspans in *. apply (print_roots_stuck _ _ _ _ r).
  - unfold sorted_roots. rewrite sort_Slice_perm, find_roots_filter.
    apply list_elem_of_filter. by split.
  - destruct (buildSpanBox fuel r (forest order spans)) as [box|] eqn:Hbox; [|done].
    exfalso.
    pose proof (chain_suffix _ _ _ _ _ Hchain) as Hq.
    destruct (buildSpanBox_Some_below fuel (forest order spans) r
                (pre ++ x :: mid ++ [y]) (length pre) x) as [_ [box' Hbox']];
      [done | | by eexists |].
    { by rewrite lookup_app_r, Nat.sub_diag. }
    by rewrite (key_cycle_never_returns (forest order spans) x mid y) in Hbox'.
Qed.

End Cycle_theorem.

Lemma reachable_cycle_never_returns_witness :
  @PrintSpanTree PlainLipgloss.lipgloss count_fmt InsertionSort.Sort_instance 1000
    (elements (dom (build_childrenMap [TestData.rootSpan; Examples.echo]))) ""
    [TestData.rootSpan; Examples.echo] = None.
Proof.
  apply (@reachable_cycle_never_returns PlainLipgloss.lipgloss count_fmt
           InsertionSort.Sort_instance InsertionSort_spec
           [TestData.rootSpan; Examples.echo] _ "" TestData.rootSpan
           [] TestData.rootSpan [] Examples.echo).
  - unfold range_order. reflexivity.
  - left.
  - reflexivity.
  - simpl. apply (chain_cons _ _ Examples.echo); [vm_compute; left | apply chain_one].
  - reflexivity.
Defined.

(** ** Spans out of reach *)

Section Orphans.
Context `{Lipgloss, Fmt, SortSpec}.

Lemma Reachable_in spans x : Reachable spans x → x ∈ spans.
Proof. by destruct 1. Qed.

Lemma mapM_agree {A B} (f g : A → option B) l :
  (∀ x, x ∈ l → f x = g x) → mapM f l = mapM g l.
Proof.
  induction l as [|a l IH]; intros Hfg; [done|]. simpl.
  rewrite (Hfg a) by left. destruct (g a); simpl; [|done].
  rewrite IH; [done|]. intros x Hx. apply Hfg. by right.
Qed.

(** The renderer reads the children map at the keys of reachable spans
    only: two maps that agree there give the same block. *)
Lemma buildSpanBox_reachable spans order cm' fuel x :
  range_order order (build_childrenMap spans) →
  (∀ y, Reachable spans y → forest order spans !!! spanKey y = cm' !!! spanKey y) →
  Reachable spans x →
  buildSpanBox fuel x (forest order spans) = buildSpanBox fuel x cm'.
Proof.
  intros Hrange Hagree. revert x.
  induction fuel as [|fuel IH]; intros x Hx; [done|].
  rewrite !buildSpanBox_S, <- (Hagree x Hx).
  rewrite (mapM_agree (λ child, buildSpanBox fuel child (forest order spans))
             (λ child, buildSpanBox fuel child cm')); [done|].
  intros c Hc. apply IH.
  apply forest_children in Hc as [Hin [Hvalid Hkey]]; [|done].
  by apply (Reachable_child spans x c).
Qed.

Lemma print_roots_agree fuel cm cm' w roots :
  (∀ r, r ∈ roots → buildSpanBox fuel r cm = buildSpanBox fuel r cm') →
  print_roots fuel cm w roots = print_roots fuel cm' w roots.
Proof.
  revert w. induction roots as [|root roots IH]; intros w Hroots; [done|].
  rewrite !print_roots_cons, (Hroots root) by left.
  destruct (buildSpanBox fuel root cm'); simpl; [|done].
  apply IH. intros r Hr. apply Hroots. by right.
Qed.

(** X3. A span with a valid parent identifier that is the identifier of no
    reachable span adds nothing to the output: [PrintSpanTree] writes the
    same bytes, and returns or not alike, as on the input without that
    span.  Nothing is reported about it. *)
Theorem orphan_adds_nothing fuel w before s after order order' :
  range_order order (build_childrenMap (before ++ s :: after)) →
  range_order order' (build_childrenMap (before ++ after)) →
  hasParent s = true →
  (∀ x, Reachable (before ++ s :: after) x → spanKey x ≠ parentKey s) →
  PrintSpanTree fuel order w (before ++ s :: after)
  = PrintSpanTree fuel order' w (before ++ after).
Proof.
  intros Hrange Hrange' Hvalid Horphan.
  assert (find_roots (before ++ s :: after) = find_roots (before ++ after)) as Hroots.
  { rewrite !find_roots_filter, !filter_app, filter_cons.
    rewrite decide_False; [done|]. by rewrite Hvalid. }
  assert (∀ k, k ≠ parentKey s →
            forest order (before ++ s :: after) !!! k
            = forest order' (before ++ after) !!! k) as Hforest.
  { intros k Hk. rewrite !lookup_total_alt, !forest_lookup by done.
    rewrite !filter_app, filter_cons. rewrite decide_False; [done|].
    intros [_ Hkey]. by apply Hk. }
  assert (sorted_roots (before ++ s :: after) = sorted_roots (before ++ after)) as Hsorted.
  { unfold sorted_roots. by rewrite Hroots. }
  rewrite !PrintSpanTree_unfold.
  destruct (before ++ after) as [|s0 rest] eqn:Hrest.
  - destruct before; [|done]. simpl in *. subst after.
    unfold sorted_roots. rewrite find_roots_filter, filter_cons, filter_nil.
    rewrite decide_False by (by rewrite Hvalid).
    by rewrite (proj1 (Permutation_nil_r _) (sort_Slice_perm _ startBefore [])).
  - rewrite <- Hrest in *. destruct (before ++ s :: after) as [|s1 rest1] eqn:Hfull.
    { by destruct before. }
    rewrite <- Hfull in *. rewrite Hsorted.
    apply print_roots_agree. intros r Hr.
    apply buildSpanBox_reachable; [done | |].
    + intros y Hy. apply Hforest. by apply Horphan.
    + unfold sorted_roots in Hr. rewrite sort_Slice_perm, <- Hroots, find_roots_filter in Hr.
      apply list_elem_of_filter in Hr as [Hnp Hin]. by apply Reachable_root.
Qed.

End Orphans.

Lemma orphan_adds_nothing_witness :
  @PrintSpanTree PlainLipgloss.lipgloss count_fmt InsertionSort.Sort_instance 4
    (elements (dom (build_childrenMap
       ([TestData.rootSpan; TestData.childSpan1] ++
        Examples.orphan :: [TestData.childSpan2; TestData.childSpan3])))) ""
    ([TestData.rootSpan; TestData.childSpan1] ++
     Examples.orphan :: [TestData.childSpan2; TestData.childSpan3])
  = @PrintSpanTree PlainLipgloss.lipgloss count_fmt InsertionSort.Sort_instance 4
      (elements (dom (build_childrenMap
         ([TestData.rootSpan; TestData.childSpan1] ++
          [TestData.childSpan2; TestData.childSpan3])))) ""
      ([TestData.rootSpan; TestData.childSpan1] ++
       [TestData.childSpan2; TestData.childSpan3]).
Proof.
  apply (@orphan_adds_nothing PlainLipgloss.lipgloss count_fmt
           InsertionSort.Sort_instance InsertionSort_spec).
  - unfold range_order. reflexivity.
  - unfold range_order. reflexivity.
  - reflexivity.
  - intros x Hx%Reachable_in. simpl in Hx.
    repeat (apply elem_of_cons in Hx as [->|Hx]; [vm_compute; discriminate|]).
    by apply elem_of_nil in Hx.
Defined.

(** ** What is written *)

Section Output.
Context `{Lipgloss, Fmt}.

Lemma print_roots_written fuel cm w roots :
  print_roots fuel cm w roots
  = blocks ← mapM (λ root, buildSpanBox fuel root cm) roots;
    Some (w +:+ written blocks).
Proof.
  revert w. induction roots as [|root roots IH]; intros w.
  - simpl. by rewrite append_nil_r.
  - rewrite print_roots_cons. simpl.
    destruct (buildSpanBox fuel root cm) as [treeStr|]; simpl; [|done].
    rewrite IH. destruct (mapM _ roots) as [blocks|]; simpl; [|done].
    unfold Fprintln. by rewrite !append_assoc.
Qed.

(** X4. [PrintSpanTree] only appends: when it returns, the writer holds
    what it held before, followed by the block of every root in the sorted
    order of the roots, each block ended by one line feed; and it returns
    exactly when [buildSpanBox] returns on every root. *)
Theorem PrintSpanTree_appends_root_blocks `{!Sort, !SortSpec} fuel order w spans :
  PrintSpanTree fuel order w spans
  = blocks ← mapM (λ root, buildSpanBox fuel root (forest order spans))
                  (sorted_roots spans);
    Some (w +:+ written blocks).
Proof.
  rewrite PrintSpanTree_unfold. destruct spans as [|s spans].
  - unfold sorted_roots.
    rewrite (proj1 (Permutation_nil_r _) (sort_Slice_perm _ startBefore [])).
    simpl. by rewrite append_nil_r.
  - apply print_roots_written.
Qed.

End Output.

Lemma PrintSpanTree_appends_root_blocks_witness :
  @PrintSpanTree PlainLipgloss.lipgloss count_fmt InsertionSort.Sort_instance 3
    Examples.test_order "log: " TestData.spans
  = blocks ← mapM (λ root, @buildSpanBox PlainLipgloss.lipgloss count_fmt 3 root
                             (@forest InsertionSort.Sort_instance Examples.test_order
                                TestData.spans))
                  (@sorted_roots InsertionSort.Sort_instance TestData.spans);
    Some ("log: " +:+ written blocks).
Proof.
  exact (@PrintSpanTree_appends_root_blocks PlainLipgloss.lipgloss count_fmt
           InsertionSort.Sort_instance InsertionSort_spec 3 Examples.test_order "log: "
           TestData.spans).
Defined.

(** ** [indentAllLines] *)

(** Splitting into lines and joining again gives the text back. *)
Lemma strings_Join_Split s : strings_Join (strings_Split s newline) nl = s.
Proof.
  induction s as [|c s IH]; [done|]. simpl.
  pose proof (strings_Split_nonempty s newline) as Hne.
  destruct (Ascii.eqb_spec c newline) as [->|Hc].
  - destruct (strings_Split s newline) as [|line lines]; [done|].
    change (strings_Join ("" :: line :: lines) nl)
      with ("" +:+ nl +:+ strings_Join (line :: lines) nl).
    by rewrite IH.
  - destruct (strings_Split s newline) as [|line lines]; [done|].
    destruct lines as [|line' lines].
    + simpl in *. by rewrite IH.
    + change (strings_Join (String c line :: line' :: lines) nl)
        with (String c (line +:+ nl +:+ strings_Join (line' :: lines) nl)).
      by rewrite <- IH.
Qed.

Lemma strings_HasPrefix_append prefix s : strings_HasPrefix (prefix +:+ s) prefix = true.
Proof. apply strings_HasPrefix_spec. by exists s. Qed.

(** X5. [indentAllLines] works line by line: for an indent without line
    feed, the lines of the result are the lines of the text, as many and in
    the same order, each with the indent in front. *)
Theorem indentAllLines_every_line s indent :
  free_of newline indent →
  strings_Split (indentAllLines s indent) newline
  = map (λ line, indent +:+ line) (strings_Split s newline)
  ∧ length (strings_Split (indentAllLines s indent) newline)
    = length (strings_Split s newline)
  ∧ Forall (λ line, strings_HasPrefix line indent = true)
      (strings_Split (indentAllLines s indent) newline).
Proof.
  intros Hindent. rewrite indentAllLines_lines by done.
  split; [done|]. split; [by rewrite length_map|].
  apply Forall_map, Forall_forall. intros line _. apply strings_HasPrefix_append.
Qed.

Lemma indentAllLines_every_line_witness :
  strings_Split (indentAllLines ("top" +:+ nl +:+ "bottom") childIndent) newline
  = map (λ line, childIndent +:+ line) (strings_Split ("top" +:+ nl +:+ "bottom") newline)
  ∧ length (strings_Split (indentAllLines ("top" +:+ nl +:+ "bottom") childIndent) newline)
    = length (strings_Split ("top" +:+ nl +:+ "bottom") newline)
  ∧ Forall (λ line, strings_HasPrefix line childIndent = true)
      (strings_Split (indentAllLines ("top" +:+ nl +:+ "bottom") childIndent) newline).
Proof.
  apply (indentAllLines_every_line ("top" +:+ nl +:+ "bottom") childIndent).
  simpl. repeat split; discriminate.
Defined.

(** X6. With the empty indent [indentAllLines] gives the text back
    unchanged, whatever line feeds it holds: splitting on the line feed
    and joining with it loses nothing. *)
Theorem indentAllLines_empty_indent s : indentAllLines s "" = s.
Proof.
  unfold indentAllLines.
  rewrite (map_ext _ id) by done.
  by rewrite map_id, strings_Join_Split.
Qed.

(** X7. Indenting twice is indenting once by both indents, the outer one
    first: this is how the block of a grandchild ends up two indents deep
    in the content of its grandparent. *)
Theorem indentAllLines_twice s inner outer :
  free_of newline inner →
  indentAllLines (indentAllLines s inner) outer = indentAllLines s (outer +:+ inner).
Proof.
  intros Hinner. unfold indentAllLines at 1.
  rewrite indentAllLines_lines by done. unfold indentAllLines.
  f_equal. rewrite map_map. apply map_ext.
  intros line. by rewrite append_assoc.
Qed.

Lemma indentAllLines_twice_witness :
  indentAllLines (indentAllLines ("top" +:+ nl +:+ "bottom") childIndent) childIndent
  = indentAllLines ("top" +:+ nl +:+ "bottom") (childIndent +:+ childIndent).
Proof.
  apply (indentAllLines_twice ("top" +:+ nl +:+ "bottom") childIndent childIndent).
  simpl. repeat split; discriminate.
Defined.

(** ** The two maps of the forest builder *)

Section Maps.
Context `{Lipgloss, Fmt, Sort}.

Lemma build_spanByID_fold (m : gmap string SpanStub) spans k :
  foldl (λ spanByID s, <[spanKey s := s]> spanByID) m spans !! k
  = match last (filter (λ s, spanKey s = k) spans) with
    | Some s => Some s
    | None => m !! k
    end.
Proof.
  revert m. induction spans as [|s spans IH]; intros m; simpl; [done|].
  rewrite IH, filter_cons. destruct (decide (spanKey s = k)) as [Hk|Hk].
  - rewrite last_cons. destruct (last (filter _ spans)); [done|].
    by rewrite Hk, lookup_insert_eq.
  - destruct (last (filter _ spans)); [done|]. by rewrite lookup_insert_ne.
Qed.

(** X8. [spanByID] keeps one span per identifier: under a key it holds the
    last span of the input with that key, and nothing under a key that no
    span has.  (The children map, in contrast, keeps every span.) *)
Theorem spanByID_last_wins spans k :
  build_spanByID spans !! k = last (filter (λ s, spanKey s = k) spans).
Proof.
  unfold build_spanByID. rewrite build_spanByID_fold, lookup_empty.
  by destruct (last _).
Qed.

Lemma filter_split (P Q R : SpanStub → Prop)
    `{∀ x, Decision (P x), ∀ x, Decision (Q x), ∀ x, Decision (R x)}
    (l : list SpanStub) :
  (∀ x, x ∈ l → (R x ↔ P x ∨ Q x)) → (∀ x, x ∈ l → P x → Q x → False) →
  filter P l ++ filter Q l ≡ₚ filter R l.
Proof.
  induction l as [|x l IH]; intros HR Hdisj; [done|].
  assert (filter P l ++ filter Q l ≡ₚ filter R l) as IH'.
  { apply IH; intros y Hy; [apply HR | apply Hdisj]; by right. }
  specialize (HR x (list_elem_of_here x l)).
  specialize (Hdisj x (list_elem_of_here x l)).
  rewrite !filter_cons.
  destruct (decide (P x)) as [HP|HP], (decide (Q x)) as [HQ|HQ],
    (decide (R x)) as [HRx|HRx]; try tauto.
  - simpl. by rewrite IH'.
  - by rewrite <- Permutation_middle, IH'.
Qed.

Lemma filter_all (P : SpanStub → Prop) `{∀ x, Decision (P x)} (l : list SpanStub) :
  (∀ x, x ∈ l → P x) → filter P l = l.
Proof.
  induction l as [|x l IH]; intros HP; [done|].
  rewrite filter_cons, decide_True by (apply HP; left).
  rewrite IH; [done|]. intros y Hy. apply HP. by right.
Qed.

Lemma child_lists_concat spans keys :
  NoDup keys →
  concat (map (λ k, filter (isChildOf k) spans) keys)
  ≡ₚ filter (λ s, hasParent s = true ∧ parentKey s ∈ keys) spans.
Proof.
  induction 1 as [|k keys Hk Hnd IH]; simpl.
  - induction spans as [|s spans IHs]; [done|].
    rewrite filter_cons, decide_False; [done|]. intros [_ ?%elem_of_nil]. done.
  - rewrite IH. apply filter_split.
    + intros s _. unfold isChildOf. rewrite elem_of_cons. split.
      * intros [Hp [->|Hin]]; auto.
      * intros [[Hp <-]|[Hp Hin]]; auto.
    + intros s _ [_ <-] [_ Hin]. done.
Qed.

Lemma build_childrenMap_dom spans k :
  k ∈ dom (build_childrenMap spans)
  ↔ ∃ s, s ∈ spans ∧ hasParent s = true ∧ parentKey s = k.
Proof.
  rewrite elem_of_dom, build_childrenMap_lookup.
  destruct (filter (isChildOf k) spans) as [|s l] eqn:Hfilter.
  - split; [by intros [? ?]|]. intros (s & Hs & Hp & Hk).
    assert (s ∈ filter (isChildOf k) spans) as Hin by (apply list_elem_of_filter; by split).
    rewrite Hfilter in Hin. by apply elem_of_nil in Hin.
  - split; [|by eexists]. intros _.
    assert (s ∈ filter (isChildOf k) spans) as Hin by (rewrite Hfilter; left).
    apply list_elem_of_filter in Hin as [[Hp Hk] Hin]. eauto.
Qed.

(** X9. The forest builder loses no span and makes none up: the root list
    together with the child lists under all keys of the children map hold
    the spans of the input, each as often as the input does. *)
Theorem forest_holds_every_span spans :
  spans ≡ₚ find_roots spans ++
           concat (map (λ k, build_childrenMap spans !!! k)
                       (elements (dom (build_childrenMap spans)))).
Proof.
  rewrite find_roots_filter.
  rewrite (map_ext _ (λ k, filter (isChildOf k) spans))
    by (intros k; apply build_childrenMap_lookup_total).
  rewrite child_lists_concat by apply NoDup_elements.
  rewrite (filter_split (λ s, hasParent s = false)
             (λ s, hasParent s = true ∧ parentKey s ∈ elements (dom (build_childrenMap spans)))
             (λ s, True)).
  - by rewrite filter_all.
  - intros s Hs. split; [|done]. intros _.
    destruct (hasParent s) eqn:Hp; [|by left]. right. split; [done|].
    apply elem_of_elements, build_childrenMap_dom. by exists s.
  - intros s _ Hn [Hp _]. congruence.
Qed.

(** X10. The keys of the children map are the parent keys of the spans
    with a valid parent identifier, no key holds an empty list, and the
    sorting loop leaves the set of keys as it is, whatever keys it
    walks. *)
Theorem childrenMap_keys spans :
  (∀ k, k ∈ dom (build_childrenMap spans)
        ↔ ∃ s, s ∈ spans ∧ hasParent s = true ∧ parentKey s = k) ∧
  (∀ k children, build_childrenMap spans !! k = Some children → children ≠ []) ∧
  (∀ order, dom (sort_children order (build_childrenMap spans))
            = dom (build_childrenMap spans)).
Proof.
  split; [apply build_childrenMap_dom|]. split.
  - intros k children. rewrite build_childrenMap_lookup.
    destruct (filter (isChildOf k) spans); [done|]. by intros [= <-].
  - intros order. unfold sort_children.
    generalize (build_childrenMap spans). induction order as [|pid order IH]; intros m;
      [done|].
    simpl. by rewrite IH, dom_alter_L.
Qed.

End Maps.

(** ** Keys *)





(** ** The lines of a block *)

Section Lines.
Context `{Lipgloss, Fmt}.

(** X12. The block of a span frames the join of seven lines (six fields
    and the header), one more for a span with a valid parent, one per
    attribute and one block per child.  The fourth line is the
    "ParentSpan:" line when the parent identifier is valid; a root has no
    such line, its fourth line is the start time. *)
Theorem block_lines cm span box :
  returns cm span box →
  ∃ lines,
    box = boxStyle_Render (JoinVertical lines) ∧
    length lines
    = 7 + (if hasParent span then 1 else 0) + length (Attributes span)
        + length (cm !!! spanKey span) ∧
    lines !! 3
    = Some (if hasParent span
            then joinLabelValue "ParentSpan:" (AString (parentKey span))
            else joinLabelValue "Start Time:" (AString (formatTime (StartTime span)))).
Proof.
  intros (childBoxes & Hchildren & ->)%returns_inv.
  eexists. split; [reflexivity|].
  apply Forall2_length in Hchildren.
  unfold fieldLines, attributeLines, hasParent, parentKey.
  destruct (SpanID_IsValid (sc_SpanID (Parent span))); simpl;
    rewrite !length_app, !length_map, <- Hchildren; simpl; split; (lia || done).
Qed.

End Lines.

Lemma block_lines_witness :
  ∃ box lines,
    @buildSpanBox PlainLipgloss.lipgloss count_fmt 3 TestData.rootSpan Examples.test_forest
    = Some box ∧
    box = @boxStyle_Render PlainLipgloss.lipgloss
            (@JoinVertical PlainLipgloss.lipgloss lines) ∧
    length lines
    = 7 + (if hasParent TestData.rootSpan then 1 else 0)
        + length (Attributes TestData.rootSpan)
        + length (Examples.test_forest !!! spanKey TestData.rootSpan) ∧
    lines !! 3
    = Some (if hasParent TestData.rootSpan
            then @joinLabelValue PlainLipgloss.lipgloss count_fmt "ParentSpan:"
                   (AString (parentKey TestData.rootSpan))
            else @joinLabelValue PlainLipgloss.lipgloss count_fmt "Start Time:"
                   (AString (@formatTime count_fmt (StartTime TestData.rootSpan)))).
Proof.
  destruct (@buildSpanBox PlainLipgloss.lipgloss count_fmt 3 TestData.rootSpan
              Examples.test_forest) as [box|] eqn:Hbox; [|vm_compute in Hbox; discriminate Hbox].
  destruct (@block_lines PlainLipgloss.lipgloss count_fmt Examples.test_forest
              TestData.rootSpan box) as (lines & Hlines); [exists 3; exact Hbox|].
  exists box, lines. split; [reflexivity | exact Hlines].
Defined.

(** ** The order of the input *)


Section Input_order.
Context `{Lipgloss, Fmt, SortSpec}.



(** X14. When [PrintSpanTree] returns, it has written nothing exactly
    when no span of the input is a root. *)
Theorem PrintSpanTree_silent_iff_no_roots fuel order w spans out :
  PrintSpanTree fuel order w spans = Some out →
  (out = w ↔ find_roots spans = []).
Proof.
  rewrite PrintSpanTree_unfold. destruct spans as [|s0 spans0] eqn:Hspans.
  { by intros [= <-]. }
  rewrite <- Hspans. clear Hspans. rewrite print_roots_written.
  destruct (mapM _ _) as [blocks|] eqn:Hblocks; simpl; [|done].
  intros [= <-]. apply mapM_Some, Forall2_length in Hblocks.
  assert (length (find_roots spans) = length blocks) as Hlen.
  { rewrite <- Hblocks. unfold sorted_roots. by rewrite sort_Slice_perm. }
  split.
  - intros Heq. destruct blocks as [|block blocks].
    + by destruct (find_roots spans).
    + exfalso. rewrite <- (append_nil_r w) in Heq at 2.
      apply (inj (String.app w)) in Heq. simpl in Heq.
      unfold nl in Heq. destruct block; discriminate Heq.
  - intros Hnil. rewrite Hnil in Hlen. destruct blocks; [|done].
    simpl. by rewrite append_nil_r.
Qed.

End Input_order.


Lemma PrintSpanTree_silent_iff_no_roots_witness :
  "" = "" ↔ find_roots [Examples.ping; Examples.pong] = [].
Proof.
  apply (@PrintSpanTree_silent_iff_no_roots PlainLipgloss.lipgloss count_fmt
           InsertionSort.Sort_instance InsertionSort_spec 0
           (elements (dom (build_childrenMap [Examples.ping; Examples.pong]))) ""
           [Examples.ping; Examples.pong] "").
  vm_compute. reflexivity.
Defined.

(** The assertions of [TestPrintSpanTree], on the run of the model with
    Go's sort and lipgloss without colours. *)
Example TestPrintSpanTree :
  match @PrintSpanTree PlainLipgloss.lipgloss count_fmt go_sort 3
          Examples.test_order "" TestData.spans with
  | Some output =>
      forallb (strings_Contains output)
        ["root-span"; "child-span-1"; "child-span-2"; "child-span-3"; "error_code"] = true
  | None => False
  end.
Proof. vm_compute. reflexivity. Qed.
